(** * Spaced-repetition quiz and pronunciation scoring of
      [voice_livekit_agent/french_voice_tutor_plus.py]

    Shallow embedding of the text utilities ([_strip_accents], [_tokenize],
    [_levenshtein], [_wer]), the Leitner scheduler ([BOX_DELAYS_DAYS],
    [_next_due]) and the quiz / pronunciation tools of [FrenchTutorPlus].

    Modelling conventions:
    - a Python [str] is a list of Unicode code points ([pystr]);
    - the Unicode tables used by the code ([unicodedata.normalize("NFD")],
      [unicodedata.category], [str.lower]) and the ISO-8601 rendering and
      parsing of [datetime] are parameters of the development (Section
      variables), so every theorem holds for any such tables;
    - a naive [datetime] is an integer number of microseconds since
      1970-01-01T00:00:00, kept inside the range of Python's [datetime];
    - Python floats are modelled as exact rationals ([Q]), except in the
      pronunciation score, which is computed in IEEE binary64 as the code
      does (Stdlib's [SpecFloat], round to nearest even). A quotient
      [int / int] is the double nearest the rational, and rounding is
      monotone, so a comparison of such a quotient with a constant such as
      [0.2] or [0.34] agrees with the rational one unless the quotient lies
      within half an ulp of the constant. *)

From Stdlib Require Import ZArith QArith Qround Lia Lqa Ascii String Sorting.Sorted.
From Stdlib Require Import Floats.SpecFloat.
From stdpp Require Import base list list_numbers gmap.

Open Scope Z_scope.

(** ** Text *)

Definition pystr := list Z.

(** Code points of an ASCII literal. *)
Definition py (s : String.string) : pystr :=
  map (fun c => Z.of_nat (Ascii.nat_of_ascii c)) (String.list_ascii_of_string s).

Definition pystr_eqb (a b : pystr) : bool := bool_decide (a = b).

(** [_WORD_RE = re.compile(r"[A-Za-zÀ-ÖØ-öø-ÿ'-]+", re.UNICODE)]: the
    character class of the regular expression. *)
Definition word_char (c : Z) : bool :=
  ((65 <=? c) && (c <=? 90)) || ((97 <=? c) && (c <=? 122))
  || ((192 <=? c) && (c <=? 214)) || ((216 <=? c) && (c <=? 246))
  || ((248 <=? c) && (c <=? 255)) || (c =? 39) || (c =? 45).

(** [str.isspace] (the characters [str.strip()] removes). *)
Definition py_isspace (c : Z) : bool :=
  ((9 <=? c) && (c <=? 13)) || ((28 <=? c) && (c <=? 32))
  || (c =? 133) || (c =? 160) || (c =? 5760)
  || ((8192 <=? c) && (c <=? 8202)) || (c =? 8232) || (c =? 8233)
  || (c =? 8239) || (c =? 8287) || (c =? 12288).

Fixpoint lstrip (s : pystr) : pystr :=
  match s with
  | c :: s' => if py_isspace c then lstrip s' else s
  | [] => []
  end.

(** [str.strip()] *)
Definition py_strip (s : pystr) : pystr := rev (lstrip (rev (lstrip s))).

(** [_WORD_RE.finditer(text)]: the maximal runs of [word_char], left to
    right; [acc] is the run being matched. *)
Fixpoint finditer (acc : pystr) (s : pystr) : list pystr :=
  match s with
  | [] => match acc with [] => [] | _ => [acc] end
  | c :: s' =>
      if word_char c then finditer (acc ++ [c]) s'
      else match acc with
           | [] => finditer [] s'
           | _ => acc :: finditer [] s'
           end
  end.

(** ** Token-level edit distance *)

Section Levenshtein.

Context {A : Type} `{EqDecision A}.

Definition min3 (x y z : nat) : nat := Nat.min (Nat.min x y) z.

Definition subst_cost (x y : A) : nat := if decide (x = y) then 0%nat else 1%nat.

(** The inner [for j, y in enumerate(b, 1)] loop of [_levenshtein]:
    [dp] is the rolling row, [prev] the saved diagonal value. *)
Fixpoint lev_inner (x : A) (bs : list A) (j : nat) (dp : list nat) (prev : nat)
  : list nat :=
  match bs with
  | [] => dp
  | y :: bs' =>
      let cur := dp !!! j in
      let v := min3 (dp !!! j + 1)%nat (dp !!! (j - 1) + 1)%nat (prev + subst_cost x y)%nat in
      lev_inner x bs' (S j) (<[j := v]> dp) cur
  end.

(** The outer [for i, x in enumerate(a, 1)] loop. *)
Fixpoint lev_outer (as_ : list A) (i : nat) (b : list A) (dp : list nat) : list nat :=
  match as_ with
  | [] => dp
  | x :: as' =>
      let prev := dp !!! 0%nat in
      let dp1 := <[0%nat := i]> dp in
      lev_outer as' (S i) b (lev_inner x b 1 dp1 prev)
  end.

(** [_levenshtein(a, b)]: [dp = list(range(len(b) + 1))], both loops,
    [return dp[-1]]. *)
Definition _levenshtein (a b : list A) : nat :=
  let dp := lev_outer a 1 b (seq 0 (S (length b))) in
  dp !!! (length dp - 1)%nat.

(** The classic Levenshtein distance, by its textbook recursion on the
    heads of both sequences (unit costs). *)
Fixpoint lev (a b : list A) : nat :=
  match a with
  | [] => length b
  | x :: a' =>
      (fix lev_a (b : list A) : nat :=
         match b with
         | [] => length a
         | y :: b' => min3 (lev a' b + 1)%nat (lev_a b' + 1)%nat (lev a' b' + subst_cost x y)%nat
         end) b
  end.

(** Edit scripts: the alignments of [a] with [b] built from deletions,
    insertions and substitutions, with their total unit cost. *)
Inductive edit_script : list A -> list A -> nat -> Prop :=
  | es_nil : edit_script [] [] 0
  | es_del x a b k : edit_script a b k -> edit_script (x :: a) b (S k)
  | es_ins y a b k : edit_script a b k -> edit_script a (y :: b) (S k)
  | es_sub x y a b k : edit_script a b k -> edit_script (x :: a) (y :: b) (k + subst_cost x y).

End Levenshtein.

(** ** Unicode tables used by the text utilities *)

(** [unicodedata.normalize("NFD", _)], [unicodedata.category(ch) == "Mn"]
    and [str.lower()]: the parts of the code that live in Python's Unicode
    database. *)
Class UnicodeTables := {
  nfd : pystr -> pystr;
  category_is_Mn : Z -> bool;
  str_lower : pystr -> pystr
}.

Section Text.

Context `{UnicodeTables}.

(** [_strip_accents(text)] *)
Definition _strip_accents (text : pystr) : pystr :=
  filter (fun ch => negb (category_is_Mn ch)) (nfd text).

(** [_tokenize(text) = [m.group(0).lower() for m in _WORD_RE.finditer(text)]] *)
Definition _tokenize (text : pystr) : list pystr :=
  map str_lower (finditer [] text).

(** [_wer(ref, hyp)]; the float quotient is the exact rational (see
    [f64_of_Q] for the double). *)
Definition _wer (ref hyp : pystr) : Q :=
  let r := _tokenize (_strip_accents ref) in
  let h := _tokenize (_strip_accents hyp) in
  match r with
  | [] => 0%Q
  | _ => (inject_Z (Z.of_nat (_levenshtein r h)) / inject_Z (Z.of_nat (length r)))%Q
  end.

(** The grading step of [answer_quiz]: the normalised answer, the gold
    string for the quiz direction, the token distance and the test
    [(dist / max_len) <= 0.34]. *)
Definition quiz_answer_ok (en2fr_dir : bool) (word translation user_answer : pystr) : bool :=
  let ans := py_strip (str_lower (_strip_accents user_answer)) in
  let gold := if en2fr_dir then str_lower (_strip_accents word)
              else str_lower (_strip_accents translation) in
  let dist := _levenshtein (_tokenize gold) (_tokenize ans) in
  let max_len := Z.max 1 (Z.of_nat (length (_tokenize gold))) in
  Qle_bool (inject_Z (Z.of_nat dist) / inject_Z max_len) (34 # 100).

End Text.

(** ** Pronunciation scoring *)

(** The four feedback levels of [check_pronunciation]:
    "Excellent — très clair !", "Bien — compréhensible avec quelques petites
    erreurs.", "Correct — retravaillons l’articulation.",
    "Difficile à comprendre — on va le décomposer.". *)
Inductive pron_level := Excellent | Bien | Correct | Difficile.

(** The [if w <= 0.2 / elif w <= 0.35 / elif w <= 0.5 / else] chain. *)
Definition pron_level_of (w : Q) : pron_level :=
  if Qle_bool w (2 # 10) then Excellent
  else if Qle_bool w (35 # 100) then Bien
  else if Qle_bool w (5 # 10) then Correct
  else Difficile.


(** IEEE binary64, Python's [float]: 53 bits of precision, largest
    exponent 1024. *)
Definition f64_prec : Z := 53.
Definition f64_emax : Z := 1024.

(** [float(z)] of an integer: the double nearest [z]. *)
Definition f64_of_Z (z : Z) : spec_float := binary_normalize f64_prec f64_emax z 0 false.

(** CPython's [a / b] on two ints (long_true_divide): the double nearest
    the exact quotient, rounded to nearest even. This is the rounding of
    [SFdiv] applied to the integers themselves. A quotient above the double
    range raises OverflowError in CPython and rounds to infinity here; a
    WER that large would need a transcript of more than [2^1024] words. *)
Definition f64_int_div (a : Z) (b : positive) : spec_float :=
  match a with
  | Z0 => S754_zero false
  | Zpos pa =>
      let '(mz, ez, lz) := SFdiv_core_binary f64_prec f64_emax (Zpos pa) 0 (Zpos b) 0 in
      binary_round_aux f64_prec f64_emax false mz ez lz
  | Zneg pa =>
      let '(mz, ez, lz) := SFdiv_core_binary f64_prec f64_emax (Zpos pa) 0 (Zpos b) 0 in
      binary_round_aux f64_prec f64_emax true mz ez lz
  end.

(** The float [w = _levenshtein(r, h) / len(r)] that [_wer] returns, from
    the rational [d / n] of the model. *)
Definition f64_of_Q (q : Q) : spec_float := f64_int_div (Qnum q) (Qden q).

(** Python's [max(0, x)] on a float: [x] if [x > 0], else the int [0]
    (written here as [+0.0], which [int] maps to the same [0]). *)
Definition f64_max0 (x : spec_float) : spec_float :=
  if SFltb (S754_zero false) x then x else S754_zero false.

(** Python's [int(x)] on a float: truncation toward zero. [int] raises on
    infinities and NaN, which [max(0, 100 * (1 - w))] is not for a
    WER [w >= 0]; they are mapped to 0. *)
Definition f64_int (x : spec_float) : Z :=
  match x with
  | S754_finite s m e =>
      let t := if 0 <=? e then Z.shiftl (Zpos m) e else Z.shiftr (Zpos m) (- e) in
      if s then - t else t
  | _ => 0
  end.

(** [score = int(max(0, 100 * (1 - w)))], each operation in binary64:
    [1 - w] and [100 * (...)] promote the ints to floats. *)
Definition pron_score (w : Q) : Z :=
  f64_int (f64_max0 (SFmul f64_prec f64_emax (f64_of_Z 100)
                       (SFsub f64_prec f64_emax (f64_of_Z 1) (f64_of_Q w)))).



(** The result of [check_pronunciation]: the "Pas de phrase cible encore."
    message, or the level, score and WER it reports (the tips are plain
    message text and are not modelled). *)
Inductive pron_result :=
  | NoTarget
  | Report (level : pron_level) (score : Z) (wer : Q).

Section Pronunciation.

Context `{UnicodeTables}.

(** [check_pronunciation(heard)] against [self._pron_target]; [if not
    self._pron_target] also treats the empty string as missing. *)
Definition check_pronunciation (pron_target : option pystr) (heard : pystr) : pron_result :=
  match pron_target with
  | None | Some [] => NoTarget
  | Some target =>
      let w := _wer target heard in
      Report (pron_level_of w) (pron_score w) w
  end.

End Pronunciation.


(** Lowercasing of the ASCII and Latin-1 capitals. *)
Definition latin1_lower (c : Z) : Z :=
  if ((65 <=? c) && (c <=? 90)) || ((192 <=? c) && (c <=? 222) && negb (c =? 215))
  then c + 32 else c.

(** A concrete instance of the Unicode tables, for evaluating the code on
    sample inputs: no decomposition, the combining diacritical marks block
    U+0300..U+036F as category Mn, and Latin-1 lowercasing. On the ASCII
    and precomposed Latin-1 inputs used below, the results of [_tokenize]
    and [_wer] are the ones Python computes. *)
#[export] Instance latin1_tables : UnicodeTables := {|
  nfd := fun s => s;
  category_is_Mn := fun c => (768 <=? c) && (c <=? 879);
  str_lower := map latin1_lower
|}.

(** "Où est la gare la plus proche ?", a sentence of [PHRASES["travel"]]. *)
Definition phrase_gare : pystr := [79; 249] ++ py " est la gare la plus proche ?".

(** ** Dates *)

Definition us_per_second : Z := 1000000.
Definition day_us : Z := 86400 * us_per_second.

(** [datetime.min] = 0001-01-01T00:00:00 and [datetime.max] =
    9999-12-31T23:59:59.999999, in microseconds since the epoch. *)
Definition datetime_min : Z := - 719162 * day_us.
Definition datetime_max : Z := 2932897 * day_us - 1.

Definition dt_in_range (t : Z) : bool := (datetime_min <=? t) && (t <=? datetime_max).

(** What [datetime.fromisoformat] returns: a naive datetime, an aware one
    (with a UTC offset), or a [ValueError]. *)
Inductive iso_parsed := ParsedNaive (t : Z) | ParsedAware (t : Z) | ParseError.

(** [dt.isoformat(timespec="seconds")] of the datetime whose whole seconds
    since the epoch are given, and [datetime.fromisoformat]. *)
Class DatetimeLib := {
  isoformat_seconds : Z -> pystr;
  fromisoformat : pystr -> iso_parsed
}.

(** ** Leitner scheduler *)

(** [BOX_DELAYS_DAYS = {1: 1, 2: 2, 3: 4, 4: 7, 5: 15}] *)
Definition BOX_DELAYS_DAYS : list (Z * Z) := [(1, 1); (2, 2); (3, 4); (4, 7); (5, 15)].

(** [dict.get(key, default)] *)
Fixpoint dict_get (d : list (Z * Z)) (key default : Z) : Z :=
  match d with
  | [] => default
  | (k, v) :: d' => if k =? key then v else dict_get d' key default
  end.

Section Scheduler.

Context `{DatetimeLib}.

(** [_next_due(box, now)]; [None] is the [OverflowError] of a sum outside
    the range of [datetime]. *)
Definition _next_due (box now : Z) : option pystr :=
  let days := dict_get BOX_DELAYS_DAYS (Z.max 1 (Z.min 5 box)) 1 in
  let t := now + days * day_us in
  if dt_in_range t then Some (isoformat_seconds (t / us_per_second)) else None.

End Scheduler.

(** The delay table as the spec writes it. *)
Definition delay_days (box : Z) : Z :=
  match box with 1 => 1 | 2 => 2 | 3 => 4 | 4 => 7 | 5 => 15 | _ => 0 end.

(** ** Tutor state *)

(** A history entry [{"t": ..., "ok": ..., "input": ...}]. *)
Record hist_entry := { h_t : pystr; h_ok : bool; h_input : pystr }.

(** A vocabulary item [{word, translation, example, box, next_due,
    history}]; [next_due = None] is a record without the key. *)
Record item := {
  word : pystr; translation : pystr; example : pystr;
  box : Z; next_due : option pystr; history : list hist_entry
}.

Definition set_box (b : Z) (it : item) : item :=
  {| word := word it; translation := translation it; example := example it;
     box := b; next_due := next_due it; history := history it |}.
Definition set_next_due (d : option pystr) (it : item) : item :=
  {| word := word it; translation := translation it; example := example it;
     box := box it; next_due := d; history := history it |}.
Definition push_history (e : hist_entry) (it : item) : item :=
  {| word := word it; translation := translation it; example := example it;
     box := box it; next_due := next_due it; history := history it ++ [e] |}.

(** The attributes of [FrenchTutorPlus] the tools read and write. *)
Record tutor := {
  level : pystr; mode : pystr; topic : pystr;
  vocab : list item;
  quiz_queue : list nat;
  quiz_current : option nat;
  quiz_direction : pystr;
  pron_target : option pystr
}.

Definition set_vocab (v : list item) (s : tutor) : tutor :=
  {| level := level s; mode := mode s; topic := topic s; vocab := v;
     quiz_queue := quiz_queue s; quiz_current := quiz_current s;
     quiz_direction := quiz_direction s; pron_target := pron_target s |}.
Definition set_quiz (q : list nat) (c : option nat) (s : tutor) : tutor :=
  {| level := level s; mode := mode s; topic := topic s; vocab := vocab s;
     quiz_queue := q; quiz_current := c;
     quiz_direction := quiz_direction s; pron_target := pron_target s |}.
Definition set_direction (d : pystr) (s : tutor) : tutor :=
  {| level := level s; mode := mode s; topic := topic s; vocab := vocab s;
     quiz_queue := quiz_queue s; quiz_current := quiz_current s;
     quiz_direction := d; pron_target := pron_target s |}.

(** A fresh [FrenchTutorPlus()] with no progress file. *)
Definition fresh_tutor : tutor :=
  {| level := py "A1"; mode := py "chat"; topic := py "cafe"; vocab := [];
     quiz_queue := []; quiz_current := None;
     quiz_direction := py "en2fr"; pron_target := None |}.

(** The tutor built by [__init__] when [_load_progress] reads a file saved
    by [_save_progress] from state [s]. *)
Definition reloaded_tutor (s : tutor) : tutor :=
  {| level := level s; mode := mode s; topic := topic s; vocab := vocab s;
     quiz_queue := []; quiz_current := None;
     quiz_direction := py "en2fr"; pron_target := None |}.

(** The replies of the quiz tools. *)
Inductive reply :=
  (** "Pas de question en cours. Dis 'start quiz' pour commencer." *)
  | NoActiveQuestion
  (** "Quiz terminé, bravo ! On révisera encore plus tard." *)
  | QuizFinished
  (** "Traduction en français: “{translation}”." *)
  | PromptFr (translation : pystr)
  (** "Traduction en anglais: “{word}”." *)
  | PromptEn (word : pystr)
  (** "✅ Bien joué ! Réponse attendue: “{show_gold}”." or
      "❌ Presque. La bonne réponse est: “{show_gold}”.", then
      "\nProchaine: {nxt}" *)
  | Verdict (ok : bool) (show_gold : pystr) (nxt : reply)
  (** "Tu n’as pas encore de vocabulaire. Ajoute quelques mots d’abord." *)
  | NoVocab
  (** "Ajouté: {word} → {translation}. Première révision demain." *)
  | Added (word translation : pystr).

Inductive exn := IndexError | OverflowError | TypeError.

(** A tool call returns its reply or raises. *)
Inductive outcome (A : Type) := Ret (a : A) | Raise (e : exn).
Arguments Ret {A} a.
Arguments Raise {A} e.

(** ** Quiz tools *)

Definition en2fr : pystr := py "en2fr".

Section Quiz.

Context `{UnicodeTables} `{DatetimeLib}.

(** [next_question()] *)
Definition next_question (s : tutor) : outcome reply * tutor :=
  match quiz_queue s with
  | [] => (Ret QuizFinished, set_quiz [] None s)
  | i :: q =>
      let s1 := set_quiz q (Some i) s in
      match vocab s !! i with
      | None => (Raise IndexError, s1)
      | Some it =>
          if pystr_eqb (quiz_direction s) en2fr then (Ret (PromptFr (translation it)), s1)
          else (Ret (PromptEn (word it)), s1)
      end
  end.

(** [answer_quiz(user_answer)] at clock reading [now]. The item is the
    dict stored in [self.vocab]; its updates are written back at index [i].
    [_save_progress] and [_maybe_auto_export] only write files and swallow
    their errors. *)
Definition answer_quiz (s : tutor) (user_answer : pystr) (now : Z) : outcome reply * tutor :=
  match quiz_current s with
  | None => (Ret NoActiveQuestion, s)
  | Some i =>
      match vocab s !! i with
      | None => (Raise IndexError, s)
      | Some it =>
          let en2fr_dir := pystr_eqb (quiz_direction s) en2fr in
          let show_gold := if en2fr_dir then word it else translation it in
          let ok := quiz_answer_ok en2fr_dir (word it) (translation it) user_answer in
          let entry := {| h_t := isoformat_seconds (now / us_per_second); h_ok := ok;
                          h_input := user_answer |} in
          let b := if ok then Z.min 5 (box it + 1) else 1 in
          let it1 := push_history entry (set_box b it) in
          match _next_due b now with
          | None => (Raise OverflowError, set_vocab (<[i := it1]> (vocab s)) s)
          | Some d =>
              let s1 := set_vocab (<[i := set_next_due (Some d) it1]> (vocab s)) s in
              match next_question s1 with
              | (Ret nxt, s2) => (Ret (Verdict ok show_gold nxt), s2)
              | (Raise e, s2) => (Raise e, s2)
              end
          end
      end
  end.

(** The body of the loop of [_due_indices]: parse [it.get("next_due",
    "1970-01-01T00:00:00")], fall back to [datetime(1970, 1, 1)] on an
    exception, compare with [now] ([TypeError] for an aware datetime). *)
Definition due_check (it : item) (now : Z) : outcome bool :=
  let raw := match next_due it with Some d => d | None => py "1970-01-01T00:00:00" end in
  let due := match fromisoformat raw with ParseError => ParsedNaive 0 | p => p end in
  match due with
  | ParsedNaive t => Ret (t <=? now)
  | _ => Raise TypeError
  end.

Fixpoint due_loop (i : nat) (items : list item) (now : Z) : outcome (list nat) :=
  match items with
  | [] => Ret []
  | it :: items' =>
      match due_check it now with
      | Raise e => Raise e
      | Ret b =>
          match due_loop (S i) items' now with
          | Raise e => Raise e
          | Ret l => Ret (if b then i :: l else l)
          end
      end
  end.

(** [_due_indices(now)] *)
Definition _due_indices (v : list item) (now : Z) : outcome (list nat) := due_loop 0 v now.

(** [sorted(enumerate(self.vocab), key=lambda t: t[1]["box"])], a stable
    sort of the indices by box (insertion: [p], which comes before the
    elements of [l] in the input, goes before the first one whose box is
    not smaller, so equal boxes keep their input order). *)
Fixpoint insert_by_box (p : nat * item) (l : list (nat * item)) : list (nat * item) :=
  match l with
  | [] => [p]
  | q :: l' => if box (snd p) <=? box (snd q) then p :: l else q :: insert_by_box p l'
  end.

Fixpoint sort_by_box (l : list (nat * item)) : list (nat * item) :=
  match l with
  | [] => []
  | p :: l' => insert_by_box p (sort_by_box l')
  end.

Definition enumerate {X : Type} (l : list X) : list (nat * X) := zip (seq 0 (length l)) l.

(** [start_quiz(count, direction)] at clock reading [now]; [shuffle] is
    [random.shuffle], a permutation of its argument. *)
Definition start_quiz (s : tutor) (count : Z) (direction : pystr) (now : Z)
    (shuffle : list nat -> list nat) : outcome reply * tutor :=
  match vocab s with
  | [] => (Ret NoVocab, s)
  | _ =>
      let s1 := set_direction (match direction with [] => en2fr
                               | _ => py_strip (str_lower direction) end) s in
      match _due_indices (vocab s1) now with
      | Raise e => (Raise e, s1)
      | Ret due0 =>
          let due := match due0 with
                     | [] => map fst (sort_by_box (enumerate (vocab s1)))
                     | _ => due0 end in
          let due' := shuffle due in
          let q := take (Z.to_nat (Z.max 1 (Z.min count (Z.of_nat (length due'))))) due' in
          next_question (set_quiz q None s1)
      end
  end.

(** [add_vocab(word, translation, example)] at clock reading [now]. *)
Definition add_vocab (s : tutor) (w t : pystr) (e : option pystr) (now : Z)
  : outcome reply * tutor :=
  match _next_due 1 now with
  | None => (Raise OverflowError, s)
  | Some d =>
      let it := {| word := py_strip w; translation := py_strip t;
                   example := py_strip (match e with Some x => x | None => [] end);
                   box := 1; next_due := Some d; history := [] |} in
      (Ret (Added (word it) (translation it)), set_vocab (vocab s ++ [it]) s)
  end.

(** One tool call. [set_level], [set_mode], [give_sentence] change only the
    level, mode, topic and pronunciation target; [phrase_pack],
    [list_vocab], [due_words] and [check_pronunciation] change nothing; the
    other tools are the functions above. Clock readings are datetimes. *)
Inductive step : tutor -> tutor -> Prop :=
  | step_add s w t e now r s' :
      dt_in_range now = true -> add_vocab s w t e now = (r, s') -> step s s'
  | step_start s count d now shuffle r s' :
      dt_in_range now = true -> (forall l, Permutation (shuffle l) l) ->
      start_quiz s count d now shuffle = (r, s') -> step s s'
  | step_next s r s' : next_question s = (r, s') -> step s s'
  | step_answer s ans now r s' :
      dt_in_range now = true -> answer_quiz s ans now = (r, s') -> step s s'
  | step_settings s lv md tp pt :
      step s {| level := lv; mode := md; topic := tp; vocab := vocab s;
                quiz_queue := quiz_queue s; quiz_current := quiz_current s;
                quiz_direction := quiz_direction s; pron_target := pt |}.

(** The states of a tutor: fresh, or restarted from the progress file its
    earlier run saved, then any sequence of tool calls. *)
Inductive reachable : tutor -> Prop :=
  | reach_fresh : reachable fresh_tutor
  | reach_reload s : reachable s -> reachable (reloaded_tutor s)
  | reach_step s s' : reachable s -> step s s' -> reachable s'.

End Quiz.

(** ** A concrete ISO-8601 library, for evaluating the code on samples *)

(** Proleptic Gregorian calendar: days since 1970-01-01 to (y, m, d). *)
Definition civil_from_days (z0 : Z) : Z * Z * Z :=
  let z := z0 + 719468 in
  let era := z / 146097 in
  let doe := z - era * 146097 in
  let yoe := (doe - doe / 1460 + doe / 36524 - doe / 146096) / 365 in
  let doy := doe - (365 * yoe + yoe / 4 - yoe / 100) in
  let mp := (5 * doy + 2) / 153 in
  let d := doy - (153 * mp + 2) / 5 + 1 in
  let m := if mp <? 10 then mp + 3 else mp - 9 in
  let y := yoe + era * 400 in
  (if m <=? 2 then y + 1 else y, m, d).

Definition days_from_civil (y0 m d : Z) : Z :=
  let y := if m <=? 2 then y0 - 1 else y0 in
  let era := y / 400 in
  let yoe := y - era * 400 in
  let doy := (153 * (if 2 <? m then m - 3 else m + 9) + 2) / 5 + d - 1 in
  let doe := yoe * 365 + yoe / 4 - yoe / 100 + doy in
  era * 146097 + doe - 719468.

Definition digit (n : Z) : Z := 48 + n.

Definition pad2 (n : Z) : pystr := [digit (n / 10); digit (n mod 10)].
Definition pad4 (n : Z) : pystr :=
  [digit (n / 1000); digit ((n / 100) mod 10); digit ((n / 10) mod 10); digit (n mod 10)].

Definition iso_of_seconds (secs : Z) : pystr :=
  let '(y, m, d) := civil_from_days (secs / 86400) in
  let r := secs mod 86400 in
  pad4 y ++ [45] ++ pad2 m ++ [45] ++ pad2 d ++ [84]
  ++ pad2 (r / 3600) ++ [58] ++ pad2 ((r / 60) mod 60) ++ [58] ++ pad2 (r mod 60).

Definition digit_val (c : Z) : option Z :=
  if (48 <=? c) && (c <=? 57) then Some (c - 48) else None.

Fixpoint digits_val (acc : Z) (l : pystr) : option Z :=
  match l with
  | [] => Some acc
  | c :: l' => match digit_val c with Some v => digits_val (acc * 10 + v) l' | None => None end
  end.

(** Parses exactly the "YYYY-MM-DDTHH:MM:SS" strings [iso_of_seconds]
    writes (Python's parser accepts more formats). *)
Definition parse_iso_seconds (s : pystr) : iso_parsed :=
  match s with
  | [y1; y2; y3; y4; 45; m1; m2; 45; d1; d2; 84; h1; h2; 58; n1; n2; 58; s1; s2] =>
      match digits_val 0 [y1; y2; y3; y4], digits_val 0 [m1; m2], digits_val 0 [d1; d2],
            digits_val 0 [h1; h2], digits_val 0 [n1; n2], digits_val 0 [s1; s2] with
      | Some y, Some m, Some d, Some h, Some n, Some sec =>
          if (1 <=? y) && (1 <=? m) && (m <=? 12) && (1 <=? d) && (d <=? 31)
             && (h <? 24) && (n <? 60) && (sec <? 60)
          then ParsedNaive ((days_from_civil y m d * 86400 + h * 3600 + n * 60 + sec) * us_per_second)
          else ParseError
      | _, _, _, _, _, _ => ParseError
      end
  | _ => ParseError
  end.

#[export] Instance iso_lib : DatetimeLib := {|
  isoformat_seconds := iso_of_seconds;
  fromisoformat := parse_iso_seconds
|}.

(** The Leitner invariant of the tutor state: every box in [1, 5], every
    queued or current quiz index a valid index of [self.vocab]. *)
Definition item_box_ok (it : item) : Prop := 1 <= box it <= 5.

Definition tutor_inv (s : tutor) : Prop :=
  Forall item_box_ok (vocab s) /\
  Forall (fun k => (k < length (vocab s))%nat) (quiz_queue s) /\
  (forall i, quiz_current s = Some i -> (i < length (vocab s))%nat).

(** Sample data. *)
Definition sample_item : item :=
  {| word := py "chat"; translation := py "cat"; example := [];
     box := 1; next_due := Some (py "2023-11-15T22:13:20"); history := [] |}.

Definition sample_now : Z := 1700000000 * us_per_second.

Definition corrupted_item : item :=
  {| word := py "chien"; translation := py "dog"; example := [];
     box := 3; next_due := Some (py "not a date"); history := [] |}.

(** A quiz run from a fresh tutor: "chat"/"cat" added at [sample_now], a
    one-question "en2fr" quiz started two days later ([random.shuffle]
    leaving the list as it is). *)
Definition quiz_demo_now : Z := sample_now + 2 * day_us.

Definition quiz_demo_added : tutor :=
  snd (add_vocab fresh_tutor (py "chat") (py "cat") None sample_now).

Definition quiz_demo : tutor :=
  snd (start_quiz quiz_demo_added 1 (py "en2fr") quiz_demo_now (fun l => l)).

Definition quiz_demo_item : item :=
  {| word := py "chat"; translation := py "cat"; example := []; box := 1;
     next_due := _next_due 1 sample_now; history := [] |}.

(** ** Phrasebank and the settings tools *)

(** [PHRASES]: the (French, English) pairs of each roleplay topic. *)
Definition PHRASES : list (pystr * list (pystr * pystr)) := [
  (py "cafe",
   [(py "Bonjour, je voudrais un caf" ++ [233] ++ py " s" ++ [8217] ++ py "il vous pla" ++ [238] ++ py "t.",
     py "Hello, I" ++ [8217] ++ py "d like a coffee please.");
    (py "C" ++ [8217] ++ py "est " ++ [224] ++ py " emporter ou sur place ?",
     py "Is that takeaway or for here?");
    (py "Vous prenez la carte ?", py "Do you take card?")]);
  (py "travel",
   [(py "O" ++ [249] ++ py " est la gare la plus proche ?",
     py "Where is the nearest train station?");
    ([192] ++ py " quelle heure part le prochain train pour Lyon ?",
     py "What time is the next train to Lyon?");
    (py "Je cherche un billet aller-retour.",
     py "I" ++ [8217] ++ py "m looking for a return ticket.")]);
  (py "hotel",
   [(py "J" ++ [8217] ++ py "ai une r" ++ [233] ++ py "servation au nom de Sam.",
     py "I have a reservation under the name Sam.");
    ([192] ++ py " partir de quelle heure est le check-in ?",
     py "From what time is check-in?");
    (py "Est-ce que le petit d" ++ [233] ++ py "jeuner est inclus ?",
     py "Is breakfast included?")])].

Definition LEVELS : list pystr := [py "A1"; py "A2"; py "B1"; py "B2"; py "C1"].
Definition MODES : list pystr :=
  [py "chat"; py "roleplay"; py "quiz"; py "explain"; py "pronounce"].

(** [ROLEPLAY_TOPICS = list(PHRASES.keys())] *)
Definition ROLEPLAY_TOPICS : list pystr := map fst PHRASES.

(** [x in xs] for a list of strings (and [x in d] for the keys of a dict). *)
Definition str_in (x : pystr) (xs : list pystr) : bool := existsb (pystr_eqb x) xs.

(** [d[k]] on a dict with string keys; [None] is the [KeyError]. *)
Fixpoint str_assoc {V : Type} (d : list (pystr * V)) (k : pystr) : option V :=
  match d with
  | [] => None
  | (k', v) :: d' => if pystr_eqb k' k then Some v else str_assoc d' k
  end.

(** [random.choice(seq)], given the index [k] the generator draws modulo
    [len(seq)]; [None] is the [IndexError] of an empty sequence. *)
Definition random_choice {X : Type} (k : nat) (l : list X) : option X :=
  l !! (k mod length l)%nat.

(** [str.upper()], the one more table the settings tools use. *)
Class UpperTable := { str_upper : pystr -> pystr }.

(** Uppercasing of the ASCII and Latin-1 small letters, as [str.upper]
    does it: ß becomes "SS", µ the Greek capital MU (U+039C) and ÿ the
    capital Ÿ (U+0178). *)
Definition latin1_upper (c : Z) : list Z :=
  if (97 <=? c) && (c <=? 122) then [c - 32]
  else if c =? 223 then [83; 83]
  else if c =? 181 then [924]
  else if c =? 255 then [376]
  else if (224 <=? c) && (c <=? 254) && negb (c =? 247) then [c - 32]
  else [c].

#[export] Instance latin1_upper_table : UpperTable := {|
  str_upper := flat_map latin1_upper
|}.

Definition set_level_field (lv : pystr) (s : tutor) : tutor :=
  {| level := lv; mode := mode s; topic := topic s; vocab := vocab s;
     quiz_queue := quiz_queue s; quiz_current := quiz_current s;
     quiz_direction := quiz_direction s; pron_target := pron_target s |}.
Definition set_mode_field (md : pystr) (s : tutor) : tutor :=
  {| level := level s; mode := md; topic := topic s; vocab := vocab s;
     quiz_queue := quiz_queue s; quiz_current := quiz_current s;
     quiz_direction := quiz_direction s; pron_target := pron_target s |}.
Definition set_topic_field (tp : pystr) (s : tutor) : tutor :=
  {| level := level s; mode := mode s; topic := tp; vocab := vocab s;
     quiz_queue := quiz_queue s; quiz_current := quiz_current s;
     quiz_direction := quiz_direction s; pron_target := pron_target s |}.
Definition set_pron_target (pt : option pystr) (s : tutor) : tutor :=
  {| level := level s; mode := mode s; topic := topic s; vocab := vocab s;
     quiz_queue := quiz_queue s; quiz_current := quiz_current s;
     quiz_direction := quiz_direction s; pron_target := pt |}.

(** The replies of [set_level], [set_mode] and [give_sentence]. *)
Inductive settings_reply :=
  (** "Niveau inconnu: {level}. Choisis parmi A1, A2, B1, B2, C1." *)
  | UnknownLevel (level : pystr)
  (** "Niveau réglé sur {lvl}. On continue !" *)
  | LevelSet (lvl : pystr)
  (** "Mode inconnu: {mode}. Choisis parmi chat, roleplay, quiz, explain, pronounce." *)
  | UnknownMode (mode : pystr)
  (** "Mode roleplay activé, thème: {topic}." *)
  | ModeRoleplay (topic : pystr)
  (** "Mode prononciation activé. ..." *)
  | ModePronounce
  (** "Mode quiz activé. ..." *)
  | ModeQuiz
  (** "Mode réglé sur {mode}." *)
  | ModeSet (mode : pystr)
  (** "Répète après moi: “{fr}” (thème: {tp})." *)
  | RepeatAfterMe (fr tp : pystr).

Section SettingsTools.

Context `{UnicodeTables} `{UpperTable}.

(** [set_level(level)] *)
Definition set_level (s : tutor) (lvl_in : pystr) : settings_reply * tutor :=
  let lvl := py_strip (str_upper lvl_in) in
  if negb (str_in lvl LEVELS) then (UnknownLevel lvl_in, s)
  else (LevelSet lvl, set_level_field lvl s).

(** [set_mode(mode, topic)]; [topic = None] is the default [None], and
    [if md == "roleplay" and topic] also skips the empty string. *)
Definition set_mode (s : tutor) (mode_in : pystr) (topic_in : option pystr)
  : settings_reply * tutor :=
  let md := py_strip (str_lower mode_in) in
  if negb (str_in md MODES) then (UnknownMode mode_in, s)
  else
    let s1 := set_mode_field md s in
    let s2 := match topic_in with
              | Some ((_ :: _) as t) =>
                  if pystr_eqb md (py "roleplay") then
                    let tp := py_strip (str_lower t) in
                    if str_in tp ROLEPLAY_TOPICS then set_topic_field tp s1 else s1
                  else s1
              | _ => s1
              end in
    let r := if pystr_eqb (mode s2) (py "roleplay") then ModeRoleplay (topic s2)
             else if pystr_eqb (mode s2) (py "pronounce") then ModePronounce
             else if pystr_eqb (mode s2) (py "quiz") then ModeQuiz
             else ModeSet (mode s2) in
    (r, s2).

(** [give_sentence(topic)]; [k1] and [k2] are the draws of the two
    [random.choice] calls. [None] is an exception ([IndexError] of
    [random.choice] on an empty list, [KeyError] of [PHRASES[tp]]); neither
    can happen, since [tp] is always a key of [PHRASES] and every topic has
    phrases. *)
Definition give_sentence (s : tutor) (topic_in : option pystr) (k1 k2 : nat)
  : option settings_reply * tutor :=
  let tp0 := str_lower (match topic_in with Some ((_ :: _) as t) => t | _ => topic s end) in
  let otp := if str_in tp0 ROLEPLAY_TOPICS then Some tp0
             else random_choice k1 ROLEPLAY_TOPICS in
  match otp with
  | None => (None, s)
  | Some tp =>
      match str_assoc PHRASES tp with
      | None => (None, s)
      | Some ps =>
          match random_choice k2 ps with
          | None => (None, s)
          | Some (fr, en) => (Some (RepeatAfterMe fr tp), set_pron_target (Some fr) s)
          end
      end
  end.

End SettingsTools.

(** ** The other tools and helpers *)

Section MoreTools.

Context `{UnicodeTables} `{DatetimeLib} `{UpperTable}.

(** One tool call, each tool with its own effect: the quiz tools as in
    [step], [set_level], [set_mode], [give_sentence], and the tools that
    change nothing ([phrase_pack], [list_vocab], [due_words],
    [check_pronunciation]). *)
Inductive tool_step : tutor -> tutor -> Prop :=
  | ts_add s w t e now r s' :
      dt_in_range now = true -> add_vocab s w t e now = (r, s') -> tool_step s s'
  | ts_start s count d now shuffle r s' :
      dt_in_range now = true -> (forall l, Permutation (shuffle l) l) ->
      start_quiz s count d now shuffle = (r, s') -> tool_step s s'
  | ts_next s r s' : next_question s = (r, s') -> tool_step s s'
  | ts_answer s ans now r s' :
      dt_in_range now = true -> answer_quiz s ans now = (r, s') -> tool_step s s'
  | ts_set_level s lv r s' : set_level s lv = (r, s') -> tool_step s s'
  | ts_set_mode s md tp r s' : set_mode s md tp = (r, s') -> tool_step s s'
  | ts_give_sentence s tp k1 k2 r s' : give_sentence s tp k1 k2 = (r, s') -> tool_step s s'
  | ts_read_only s : tool_step s s.

Inductive tool_reachable : tutor -> Prop :=
  | treach_fresh : tool_reachable fresh_tutor
  | treach_reload s : tool_reachable s -> tool_reachable (reloaded_tutor s)
  | treach_step s s' : tool_reachable s -> tool_step s s' -> tool_reachable s'.

End MoreTools.

(** The settings the tools keep: a level of [LEVELS], a mode of [MODES],
    a topic of [ROLEPLAY_TOPICS], and no pronunciation target or a French
    sentence of [PHRASES]. *)
Definition settings_inv (s : tutor) : Prop :=
  str_in (level s) LEVELS = true /\ str_in (mode s) MODES = true /\
  str_in (topic s) ROLEPLAY_TOPICS = true /\
  (pron_target s = None \/
   exists tp ps fr en, str_assoc PHRASES tp = Some ps /\ In (fr, en) ps /\
                       pron_target s = Some fr).

(** [list_vocab()]: "Ta liste est vide. ..." or one line
    "{i}. {word} → {translation} | box {box} | due {next_due}" per item,
    numbered from 1; [None] is the [KeyError] of [it['next_due']] on an item
    without the key. *)
Inductive vocab_listing :=
  | EmptyVocab
  | VocabLines (rows : list (nat * pystr * pystr * Z * pystr)).

Fixpoint list_rows (i : nat) (v : list item) : option (list (nat * pystr * pystr * Z * pystr)) :=
  match v with
  | [] => Some []
  | it :: v' =>
      match next_due it with
      | None => None
      | Some d =>
          match list_rows (S i) v' with
          | None => None
          | Some rows => Some ((i, word it, translation it, box it, d) :: rows)
          end
      end
  end.

Definition list_vocab (s : tutor) : option vocab_listing :=
  match vocab s with
  | [] => Some EmptyVocab
  | v => match list_rows 1 v with None => None | Some rows => Some (VocabLines rows) end
  end.

(** Python's [<] on strings: lexicographic on code points. *)
Fixpoint str_ltb (a b : pystr) : bool :=
  match a, b with
  | _, [] => false
  | [], _ :: _ => true
  | x :: a', y :: b' => (x <? y) || ((x =? y) && str_ltb a' b')
  end.

(** The sort key of [due_words]: [(item.get("box", 1), item.get("next_due", ""))],
    and [<] on these tuples. *)
Definition due_key (it : item) : Z * pystr :=
  (box it, match next_due it with Some d => d | None => [] end).

Definition key_ltb (k1 k2 : Z * pystr) : bool :=
  (fst k1 <? fst k2) || ((fst k1 =? fst k2) && str_ltb (snd k1) (snd k2)).

(** [list.sort(key=...)]: a stable sort (insertion: an element goes before
    the first one whose key is not smaller). *)
Fixpoint insert_by_key {X : Type} (key : X -> Z * pystr) (x : X) (l : list X) : list X :=
  match l with
  | [] => [x]
  | y :: l' => if key_ltb (key y) (key x) then y :: insert_by_key key x l' else x :: l
  end.

Fixpoint sort_by_key {X : Type} (key : X -> Z * pystr) (l : list X) : list X :=
  match l with
  | [] => []
  | x :: l' => insert_by_key key x (sort_by_key key l')
  end.

(** The key of index [i], read as [self.vocab[i]]; the indices sorted are
    those of [_due_indices], valid indices of [self.vocab], so the [None]
    case is not reached. *)
Definition index_key (v : list item) (i : nat) : Z * pystr :=
  match v !! i with Some it => due_key it | None => (1, []) end.

Section DueWords.

Context `{DatetimeLib}.

(** [due_words(top_k)] at clock reading [now]: [None] is the "Aucune
    révision urgente aujourd’hui. ..." reply, [Some idxs] the indices of the
    items listed, one line per index. *)
Definition due_words (s : tutor) (top_k : Z) (now : Z) : outcome (option (list nat)) :=
  match _due_indices (vocab s) now with
  | Raise e => Raise e
  | Ret [] => Ret None
  | Ret due =>
      let sorted := sort_by_key (index_key (vocab s)) due in
      Ret (Some (take (Z.to_nat (Z.max 1 top_k)) sorted))
  end.

(** The [overdue_days] column of [_export_snapshot] for item [it] at
    [now]: [(now - due).days if now > due else 0]; [None] is the empty
    string written when [fromisoformat] fails or the comparison with an
    aware datetime raises [TypeError] (both inside the [try]). *)
Definition overdue_days (it : item) (now : Z) : option Z :=
  let raw := match next_due it with Some d => d | None => py "1970-01-01T00:00:00" end in
  match fromisoformat raw with
  | ParsedNaive t => Some (if t <? now then (now - t) / day_us else 0)
  | ParsedAware _ => None
  | ParseError => None
  end.

End DueWords.

Section MoreText.

Context `{UnicodeTables}.

(** [_accent_mismatches(ref, hyp)]: over [zip(r_tokens, h_tokens)], the
    pairs equal without accents but different with them. *)
Definition _accent_mismatches (ref hyp : pystr) : list (pystr * pystr) :=
  List.filter (fun p => pystr_eqb (_strip_accents (fst p)) (_strip_accents (snd p))
                        && negb (pystr_eqb (fst p) (snd p)))
    (zip (_tokenize ref) (_tokenize hyp)).

(** "j’ai" *)
Definition jai : pystr := [106; 8217; 97; 105].

(** The test of the "j’ai" tip of [check_pronunciation]:
    [len(h_tokens) and len(t_tokens) and h_tokens[0] == "je" and
    t_tokens[0] == "j’ai"]. *)
Definition jai_tip (target heard : pystr) : bool :=
  match _tokenize heard, _tokenize target with
  | h0 :: _, t0 :: _ => pystr_eqb h0 (py "je") && pystr_eqb t0 jai
  | _, _ => false
  end.

End MoreText.

(** A session of answers: [answer_quiz] called on each (answer, clock
    reading) in turn. *)
Fixpoint answer_all `{UnicodeTables} `{DatetimeLib} (s : tutor) (answers : list (pystr * Z))
  : list (outcome reply) * tutor :=
  match answers with
  | [] => ([], s)
  | (a, now) :: rest =>
      let '(r, s1) := answer_quiz s a now in
      let '(rs, s2) := answer_all s1 rest in
      (r :: rs, s2)
  end.

(** A tutor after [set_level(" b2 ")] and [give_sentence("Travel")], with
    the draws 0 and 1, on the Latin-1 tables. *)
Definition settings_demo : tutor :=
  snd (@give_sentence latin1_tables
         (snd (@set_level latin1_upper_table fresh_tutor (py " b2 ")))
         (Some (py "Travel")) 0 1).

(** ** Environment helpers *)

(** The process environment [os.environ], by variable name. *)
Abbreviation environ := (gmap pystr pystr).

(** [os.getenv(key, default)] *)
Definition getenv (env : environ) (key dflt : pystr) : pystr :=
  match env !! key with Some v => v | None => dflt end.

(** [_flag(name, default)]: [(os.getenv(name, default) or "").strip().lower()
    in {"1", "true", "yes", "on"}]. *)
Definition _flag `{UnicodeTables} (env : environ) (name dflt : pystr) : bool :=
  let v := match getenv env name dflt with [] => [] | v => v end in
  str_in (py_strip (str_lower v)) [py "1"; py "true"; py "yes"; py "on"].

(** [not os.getenv(k)]: unset or set to the empty string. *)
Definition env_missing (env : environ) (k : pystr) : bool :=
  match env !! k with None => true | Some [] => true | Some _ => false end.

(** [_require_env(keys)]; [Some missing] is the [RuntimeError] it raises,
    whose message lists [missing] joined by ", ". *)
Definition _require_env (env : environ) (keys : list pystr) : option (list pystr) :=
  let missing := List.filter (env_missing env) keys in
  match missing with [] => None | _ => Some missing end.

(** The replies of [phrase_pack]: "Sujet inconnu: {topic}. Choisis parmi
    cafe, travel, hotel." or "Phrases utiles pour {tp}:" followed by one line
    "- {fr}  ({en})" per pair. *)
Inductive pack_reply :=
  | UnknownTopic (topic : pystr)
  | PhrasePack (tp : pystr) (items : list (pystr * pystr)).

(** [phrase_pack(topic)] *)
Definition phrase_pack `{UnicodeTables} (topic_in : pystr) : pack_reply :=
  let tp := py_strip (str_lower topic_in) in
  match str_assoc PHRASES tp with
  | None => UnknownTopic topic_in
  | Some items => PhrasePack tp items
  end.

(** [next_due] as [_due_indices] and the export read it:
    [it.get("next_due", "1970-01-01T00:00:00")]. *)
Definition raw_next_due (it : item) : pystr :=
  match next_due it with Some d => d | None => py "1970-01-01T00:00:00" end.

(** The order [sort] leaves two indices in: [x] before [y] when the key of
    [y] is not smaller. *)
Definition key_le_rel {X : Type} (key : X -> Z * pystr) (x y : X) : Prop :=
  key_ltb (key y) (key x) = false.

(** An item that has its [next_due] key. *)
Definition has_due (it : item) : Prop := is_Some (next_due it).

(** Two states with the same level, mode, topic and pronunciation target. *)
Definition same_settings (s s' : tutor) : Prop :=
  level s' = level s /\ mode s' = mode s /\ topic s' = topic s /\ pron_target s' = pron_target s.

(* DEFINITIONS-END *)

(** * Proofs *)

Example lev_ex1 : _levenshtein [1;2;3] [1;3] = 1%nat.
Proof. reflexivity. Qed.
Example lev_ex2 : _levenshtein [1;2;3;4] [5;1;2;4;4] = 2%nat.
Proof. reflexivity. Qed.
Example lev_ex3 : lev [1;2;3;4] [5;1;2;4;4] = 2%nat.
Proof. reflexivity. Qed.

(** ** The rolling-row dynamic program computes the Levenshtein distance *)

Section LevenshteinProofs.

Context {A : Type} `{EqDecision A}.

Local Open Scope nat_scope.

Lemma lev_nil_l (b : list A) : lev [] b = length b.
Proof. reflexivity. Qed.

Lemma lev_nil_r (a : list A) : lev a [] = length a.
Proof. destruct a; reflexivity. Qed.

Lemma lev_cons (x y : A) (a b : list A) :
  lev (x :: a) (y :: b) =
  min3 (lev a (y :: b) + 1) (lev (x :: a) b + 1) (lev a b + subst_cost x y).
Proof. reflexivity. Qed.

Lemma min3_cases p q r : min3 p q r = p \/ min3 p q r = q \/ min3 p q r = r.
Proof. unfold min3. lia. Qed.

Lemma min3_le p q r : (min3 p q r <= p /\ min3 p q r <= q /\ min3 p q r <= r)%nat.
Proof. unfold min3. lia. Qed.

Lemma edit_script_cost (a b : list A) k k' :
  edit_script a b k -> k = k' -> edit_script a b k'.
Proof. intros H ->. exact H. Qed.

Lemma edit_script_inserts (b : list A) : edit_script [] b (length b).
Proof. induction b; simpl; constructor; auto. Qed.

Lemma edit_script_deletes (a : list A) : edit_script a [] (length a).
Proof. induction a; simpl; constructor; auto. Qed.

(** [lev a b] is the cost of some edit script ... *)
Lemma lev_edit_script (a b : list A) : edit_script a b (lev a b).
Proof.
  revert b. induction a as [|x a IHa]; intros b.
  - apply edit_script_inserts.
  - induction b as [|y b IHb].
    + rewrite lev_nil_r. apply edit_script_deletes.
    + rewrite lev_cons.
      destruct (min3_cases (lev a (y :: b) + 1) (lev (x :: a) b + 1)
                  (lev a b + subst_cost x y)) as [E|[E|E]]; rewrite E.
      * eapply edit_script_cost; [apply es_del, IHa | lia].
      * eapply edit_script_cost; [apply es_ins, IHb | lia].
      * apply es_sub, IHa.
Qed.

Lemma lev_del_le (x : A) (a b : list A) : (lev (x :: a) b <= S (lev a b))%nat.
Proof.
  destruct b as [|y b].
  - rewrite !lev_nil_r. simpl. lia.
  - rewrite lev_cons. pose proof (min3_le (lev a (y :: b) + 1) (lev (x :: a) b + 1)
                          (lev a b + subst_cost x y)). lia.
Qed.

Lemma lev_ins_le (y : A) (a b : list A) : (lev a (y :: b) <= S (lev a b))%nat.
Proof.
  destruct a as [|x a].
  - rewrite !lev_nil_l. simpl. lia.
  - rewrite lev_cons. pose proof (min3_le (lev a (y :: b) + 1) (lev (x :: a) b + 1)
                          (lev a b + subst_cost x y)). lia.
Qed.

(** ... and no edit script is cheaper. *)
Lemma edit_script_lev_le (a b : list A) k : edit_script a b k -> (lev a b <= k)%nat.
Proof.
  induction 1 as [| x a b k _ IH | y a b k _ IH | x y a b k _ IH].
  - reflexivity.
  - pose proof (lev_del_le x a b). lia.
  - pose proof (lev_ins_le y a b). lia.
  - rewrite lev_cons. pose proof (min3_le (lev a (y :: b) + 1) (lev (x :: a) b + 1)
                          (lev a b + subst_cost x y)). lia.
Qed.

Lemma edit_script_app (a1 b1 a2 b2 : list A) k1 k2 :
  edit_script a1 b1 k1 -> edit_script a2 b2 k2 ->
  edit_script (a1 ++ a2) (b1 ++ b2) (k1 + k2).
Proof.
  induction 1 as [| x a b k _ IH | y a b k _ IH | x y a b k _ IH]; intros H2; simpl.
  - exact H2.
  - apply es_del, IH, H2.
  - apply es_ins, IH, H2.
  - eapply edit_script_cost; [apply es_sub, IH, H2 | lia].
Qed.

Lemma edit_script_rev (a b : list A) k :
  edit_script a b k -> edit_script (rev a) (rev b) k.
Proof.
  induction 1 as [| x a b k _ IH | y a b k _ IH | x y a b k _ IH]; simpl.
  - constructor.
  - rewrite <- (app_nil_r (rev b)). eapply edit_script_cost.
    + apply (edit_script_app _ _ [x] [] _ 1 IH). apply es_del, es_nil.
    + lia.
  - rewrite <- (app_nil_r (rev a)). eapply edit_script_cost.
    + apply (edit_script_app _ _ [] [y] _ 1 IH). apply es_ins, es_nil.
    + lia.
  - apply (edit_script_app _ _ [x] [y] _ (0 + subst_cost x y) IH).
    apply es_sub, es_nil.
Qed.

Lemma lev_rev (a b : list A) : lev (rev a) (rev b) = lev a b.
Proof.
  apply Nat.le_antisymm.
  - apply edit_script_lev_le, edit_script_rev, lev_edit_script.
  - rewrite <- (rev_involutive a) at 1. rewrite <- (rev_involutive b) at 1.
    apply edit_script_lev_le, edit_script_rev, lev_edit_script.
Qed.

Lemma lev_zero_iff (a b : list A) : lev a b = 0%nat <-> a = b.
Proof.
  split.
  - revert b. induction a as [|x a IHa]; intros [|y b] H; try done.
    rewrite lev_cons in H. unfold min3, subst_cost in H.
    destruct (decide (x = y)) as [->|]; [|lia].
    f_equal. apply IHa. lia.
  - intros <-. induction a as [|x a IHa]; [reflexivity|].
    rewrite lev_cons. unfold subst_cost. rewrite decide_True by done.
    rewrite IHa. unfold min3. lia.
Qed.

Lemma lev_inner_spec (x : A) (old new : nat -> nat) (bs : list A) :
  forall j (dp : list nat),
  (1 <= j)%nat -> length dp = (j + length bs)%nat ->
  (forall k, (k < j)%nat -> dp !!! k = new k) ->
  (forall k, (j <= k)%nat -> (k < length dp)%nat -> dp !!! k = old k) ->
  (forall k y, bs !! k = Some y ->
     new (j + k)%nat = min3 (old (j + k) + 1) (new (j + k - 1) + 1)
                            (old (j + k - 1) + subst_cost x y)) ->
  length (lev_inner x bs j dp (old (j - 1)%nat)) = length dp /\
  forall k, (k < length dp)%nat -> lev_inner x bs j dp (old (j - 1)%nat) !!! k = new k.
Proof.
  induction bs as [|y bs IH]; intros j dp Hj Hlen Hnew Hold Hrec; simpl.
  - split; [reflexivity|]. intros k Hk. apply Hnew. simpl in Hlen. lia.
  - simpl in Hlen.
    assert (Ecur : dp !!! j = old j) by (apply Hold; lia).
    assert (Ediag : dp !!! (j - 1)%nat = new (j - 1)%nat) by (apply Hnew; lia).
    assert (Ev : min3 (dp !!! j + 1) (dp !!! (j - 1) + 1) (old (j - 1) + subst_cost x y)
                 = new j).
    { rewrite Ecur, Ediag. specialize (Hrec 0%nat y eq_refl).
      rewrite Nat.add_0_r in Hrec. rewrite Hrec. reflexivity. }
    rewrite Ev, Ecur.
    replace (old j) with (old (S j - 1)%nat) by (f_equal; lia).
    destruct (IH (S j) (<[j := new j]> dp)) as [IHlen IHval].
    + lia.
    + rewrite length_insert. lia.
    + intros k Hk. destruct (decide (k = j)) as [->|Hne].
      * apply list_lookup_total_insert_eq. lia.
      * rewrite list_lookup_total_insert_ne by congruence. apply Hnew. lia.
    + intros k Hk Hk'. rewrite length_insert in Hk'.
      rewrite list_lookup_total_insert_ne by lia. apply Hold; lia.
    + intros k y' Hk. replace (S j + k)%nat with (j + S k)%nat by lia.
      apply Hrec. simpl. exact Hk.
    + rewrite length_insert in IHlen. split; [exact IHlen|].
      intros k Hk. apply IHval. rewrite length_insert. exact Hk.
Qed.

Section Rows.

Variables a b : list A.

(** [D i j]: the distance between the prefixes [a[:i]] and [b[:j]]. *)
Let D (i j : nat) : nat := lev (rev (take i a)) (rev (take j b)).

Lemma D_0 j : (j <= length b)%nat -> D 0 j = j.
Proof.
  intros Hj. unfold D. rewrite take_0. cbn [rev].
  rewrite lev_nil_l, length_rev, length_take. lia.
Qed.

Lemma D_col i : (i <= length a)%nat -> D i 0 = i.
Proof.
  intros Hi. unfold D. rewrite (take_0 b). cbn [rev].
  rewrite lev_nil_r, length_rev, length_take. lia.
Qed.

Lemma D_step i j x y : a !! i = Some x -> b !! j = Some y ->
  D (S i) (S j) = min3 (D i (S j) + 1) (D (S i) j + 1) (D i j + subst_cost x y).
Proof.
  intros Hx Hy. unfold D.
  rewrite (take_S_r a i x Hx), (take_S_r b j y Hy), !rev_unit.
  rewrite lev_cons. rewrite <- rev_unit, <- (take_S_r b j y Hy).
  rewrite <- (rev_unit (take i a) x), <- (take_S_r a i x Hx). reflexivity.
Qed.

Lemma lev_outer_spec : forall (as_ : list A) i (dp : list nat),
  (i <= length a)%nat -> as_ = drop i a -> length dp = S (length b) ->
  (forall k, (k <= length b)%nat -> dp !!! k = D i k) ->
  length (lev_outer as_ (S i) b dp) = S (length b) /\
  forall k, (k <= length b)%nat -> lev_outer as_ (S i) b dp !!! k = D (length a) k.
Proof.
  induction as_ as [|x as_ IH]; intros i dp Hi Has Hlen Hdp; simpl.
  - assert (i = length a).
    { pose proof (f_equal length Has) as E. rewrite length_drop in E. simpl in E. lia. }
    subst i. split; [exact Hlen | exact Hdp].
  - assert (Hx : a !! i = Some x).
    { rewrite <- (Nat.add_0_r i), <- lookup_drop, <- Has. reflexivity. }
    assert (Hia : (i < length a)%nat) by (apply lookup_lt_Some in Hx; exact Hx).
    assert (Has' : as_ = drop (S i) a).
    { replace (S i) with (i + 1)%nat by lia. rewrite <- drop_drop, <- Has. reflexivity. }
    rewrite (Hdp 0%nat ltac:(lia)).
    change (D i 0) with (D i (1 - 1)%nat).
    destruct (lev_inner_spec x (D i) (D (S i)) b 1 (<[0%nat := S i]> dp))
      as [Hl Hv].
    + lia.
    + rewrite length_insert. lia.
    + intros k Hk. assert (k = 0%nat) as -> by lia.
      rewrite list_lookup_total_insert_eq by lia. symmetry. apply D_col. lia.
    + intros k Hk Hk'. rewrite length_insert in Hk'.
      rewrite list_lookup_total_insert_ne by lia. apply Hdp. lia.
    + intros k y Hy. simpl. rewrite Nat.sub_0_r. apply (D_step i k x y Hx Hy).
    + rewrite length_insert in Hl, Hv.
      apply (IH (S i)); [lia | exact Has' | lia |].
      intros k Hk. apply Hv. lia.
Qed.

Lemma levenshtein_rows : _levenshtein a b = lev a b.
Proof.
  unfold _levenshtein.
  destruct (lev_outer_spec a 0 (seq 0 (S (length b)))) as [Hl Hv].
  - lia.
  - reflexivity.
  - apply length_seq.
  - intros k Hk. rewrite lookup_total_seq_lt by lia. symmetry. apply D_0. lia.
  - rewrite Hl. simpl. rewrite Nat.sub_0_r, Hv by lia.
    unfold D. rewrite !take_ge by lia. apply lev_rev.
Qed.

End Rows.

End LevenshteinProofs.

(** ** Tokenisation *)

Lemma space_not_word c : py_isspace c = true -> word_char c = false.
Proof.
  unfold py_isspace, word_char. intros H.
  apply Bool.not_true_iff_false. intros W.
  rewrite !Bool.orb_true_iff, !Bool.andb_true_iff, !Z.leb_le, !Z.eqb_eq in H, W.
  lia.
Qed.

Lemma finditer_snoc_nonword acc s c : word_char c = false ->
  finditer acc (s ++ [c]) = finditer acc s.
Proof.
  intros Hc. revert acc. induction s as [|d s IH]; intros acc; simpl.
  - rewrite Hc. destruct acc; reflexivity.
  - destruct (word_char d); [apply IH|]. destruct acc; rewrite IH; reflexivity.
Qed.

Lemma finditer_app_nonword acc s w : Forall (fun c => word_char c = false) w ->
  finditer acc (s ++ w) = finditer acc s.
Proof.
  intros Hw. revert s. induction Hw as [|c w Hc Hw IH]; intros s.
  - rewrite app_nil_r. reflexivity.
  - replace (s ++ c :: w) with ((s ++ [c]) ++ w) by (rewrite <- app_assoc; reflexivity).
    rewrite IH. apply finditer_snoc_nonword, Hc.
Qed.

Lemma finditer_nonword_app s w : Forall (fun c => word_char c = false) w ->
  finditer [] (w ++ s) = finditer [] s.
Proof.
  induction 1 as [|c w Hc Hw IH]; [reflexivity|]. simpl. rewrite Hc. exact IH.
Qed.

Lemma lstrip_split s : exists p, s = p ++ lstrip s /\ Forall (fun c => word_char c = false) p.
Proof.
  induction s as [|c s [p [Hp Hf]]]; simpl.
  - exists []. split; [reflexivity | constructor].
  - destruct (py_isspace c) eqn:Hc.
    + exists (c :: p). split; [simpl; rewrite <- Hp; reflexivity|].
      constructor; [apply space_not_word, Hc | exact Hf].
    + exists []. split; [reflexivity | constructor].
Qed.

(** [str.strip()] only removes separators, so it does not change tokens. *)
Lemma finditer_py_strip s : finditer [] (py_strip s) = finditer [] s.
Proof.
  unfold py_strip.
  destruct (lstrip_split s) as [p1 [E1 F1]].
  destruct (lstrip_split (rev (lstrip s))) as [p2 [E2 F2]].
  set (u := lstrip s) in *.
  assert (Eu : u = rev (lstrip (rev u)) ++ rev p2).
  { rewrite <- rev_app_distr, <- E2, rev_involutive. reflexivity. }
  transitivity (finditer [] u).
  - transitivity (finditer [] (rev (lstrip (rev u)) ++ rev p2)).
    + symmetry. apply finditer_app_nonword. apply Forall_rev. exact F2.
    + rewrite <- Eu. reflexivity.
  - transitivity (finditer [] (p1 ++ u)).
    + symmetry. apply finditer_nonword_app, F1.
    + rewrite <- E1. reflexivity.
Qed.

Section TextProofs.

Context `{UnicodeTables}.

Lemma tokenize_py_strip s : _tokenize (py_strip s) = _tokenize s.
Proof. unfold _tokenize. rewrite finditer_py_strip. reflexivity. Qed.

End TextProofs.

(** ** Rational thresholds *)

Lemma ratio_le_iff (d : nat) (m n : Z) (q : positive) : (0 < m)%Z ->
  (inject_Z (Z.of_nat d) / inject_Z m <= n # q)%Q <-> (Z.of_nat d * Zpos q <= n * m)%Z.
Proof.
  intros Hm. destruct m as [|p|p]; try lia.
  unfold Qle, Qdiv, Qmult, Qinv, inject_Z; simpl. lia.
Qed.

Lemma ratio_nonneg (d n : nat) : (0 <= inject_Z (Z.of_nat d) / inject_Z (Z.of_nat n))%Q.
Proof.
  destruct n as [|n].
  - unfold Qle, Qdiv, Qmult, Qinv, inject_Z; simpl. lia.
  - unfold Qle, Qdiv, Qmult, Qinv, inject_Z; simpl. lia.
Qed.

Lemma ratio_zero_iff (d n : nat) :
  (inject_Z (Z.of_nat d) / inject_Z (Z.of_nat (S n)) == 0)%Q <-> d = 0%nat.
Proof.
  unfold Qeq, Qdiv, Qmult, Qinv, inject_Z; simpl. lia.
Qed.

(** ** Quiz grading *)

Section GradingProofs.

Context `{UnicodeTables}.

Lemma quiz_answer_ok_spec (en2fr_dir : bool) (word translation user_answer : pystr) :
  quiz_answer_ok en2fr_dir word translation user_answer = true <->
  (inject_Z (Z.of_nat (lev (_tokenize (str_lower (_strip_accents (if en2fr_dir then word else translation))))
                            (_tokenize (str_lower (_strip_accents user_answer)))))
   / inject_Z (Z.max 1 (Z.of_nat (length (_tokenize (str_lower (_strip_accents (if en2fr_dir then word else translation))))))) <= 34 # 100)%Q.
Proof.
  unfold quiz_answer_ok. rewrite tokenize_py_strip, levenshtein_rows, Qle_bool_iff.
  destruct en2fr_dir; reflexivity.
Qed.

End GradingProofs.

(** C1. For every quiz item, [answer_quiz] accepts the answer if and only
    if the token-level edit distance between the accent-stripped,
    lowercased gold string (the French word for "en2fr", the translation
    otherwise) and the accent-stripped, lowercased answer, divided by
    [max(1, number of gold tokens)], is at most 0.34. *)
Theorem answer_quiz_accept_iff `{UnicodeTables} (en2fr_dir : bool)
    (word translation user_answer : pystr) :
  let gold := str_lower (_strip_accents (if en2fr_dir then word else translation)) in
  let ans := str_lower (_strip_accents user_answer) in
  quiz_answer_ok en2fr_dir word translation user_answer = true <->
  (inject_Z (Z.of_nat (lev (_tokenize gold) (_tokenize ans)))
   / inject_Z (Z.max 1 (Z.of_nat (length (_tokenize gold)))) <= 34 # 100)%Q.
Proof. intros gold ans. apply quiz_answer_ok_spec. Qed.

(** C10. When the normalised gold string is a single token, the
    threshold 0.34 over the denominator 1 admits no edit at all: the
    answer is accepted exactly when it normalises to that same single
    token. *)
Theorem single_token_gold_exact_match `{UnicodeTables} (en2fr_dir : bool)
    (word translation user_answer g : pystr) :
  _tokenize (str_lower (_strip_accents (if en2fr_dir then word else translation))) = [g] ->
  quiz_answer_ok en2fr_dir word translation user_answer = true <->
  _tokenize (str_lower (_strip_accents user_answer)) = [g].
Proof.
  intros Hg. rewrite quiz_answer_ok_spec, Hg. simpl length.
  rewrite ratio_le_iff by lia.
  split.
  - intros Hle. symmetry. apply lev_zero_iff. lia.
  - intros Ha. rewrite Ha. assert (lev [g] [g] = 0%nat) as -> by (apply lev_zero_iff; reflexivity).
    lia.
Qed.

Lemma single_token_gold_exact_match_witness :
  _tokenize (str_lower (_strip_accents (py "chat"))) = [py "chat"] /\
  (quiz_answer_ok true (py "chat") (py "cat") (py " Chat ") = true <->
   _tokenize (str_lower (_strip_accents (py " Chat "))) = [py "chat"]).
Proof.
  split; [vm_compute; reflexivity|].
  apply (single_token_gold_exact_match true (py "chat") (py "cat") (py " Chat ") (py "chat")).
  vm_compute. reflexivity.
Defined.

(** C4. [_levenshtein], the rolling single-row dynamic program of the code,
    returns exactly the classic Levenshtein distance with unit costs: it
    equals the textbook recursion [lev], it is the cost of an edit script
    (insertions, deletions, substitutions) from [a] to [b], and no edit
    script is cheaper. *)
Theorem levenshtein_is_edit_distance {A : Type} `{EqDecision A} (a b : list A) :
  _levenshtein a b = lev a b /\
  edit_script a b (_levenshtein a b) /\
  (forall k, edit_script a b k -> (_levenshtein a b <= k)%nat).
Proof.
  rewrite levenshtein_rows. split; [reflexivity|]. split.
  - apply lev_edit_script.
  - apply edit_script_lev_le.
Qed.

(** ** Word error rate *)

Section WerProofs.

Context `{UnicodeTables}.

Lemma wer_nonneg (ref hyp : pystr) : (0 <= _wer ref hyp)%Q.
Proof.
  unfold _wer. destruct (_tokenize (_strip_accents ref)).
  - apply Qle_refl.
  - apply ratio_nonneg.
Qed.

End WerProofs.

(** C5 (as stated, refuted). The claim that [word_error_rate(ref, hyp) == 0]
    exactly when the normalised tokenisations are equal fails for an empty
    reference: [_wer("", "anything")] is 0.0 although "anything" has one
    token. *)
Lemma wer_zero_iff_fails_empty_ref :
  (_wer [] (py "anything") == 0)%Q /\
  _tokenize (_strip_accents []) <> _tokenize (_strip_accents (py "anything")).
Proof. split; [reflexivity | vm_compute; discriminate]. Qed.

(** C5 (amended). The word error rate is never negative; it is 0.0 when
    the reference has no tokens; and when the reference has at least one
    token it is 0 exactly when the two normalised tokenisations are equal. *)
Theorem wer_bounds `{UnicodeTables} (ref hyp : pystr) :
  (0 <= _wer ref hyp)%Q /\
  (_tokenize (_strip_accents ref) = [] -> (_wer ref hyp == 0)%Q) /\
  (_tokenize (_strip_accents ref) <> [] ->
     ((_wer ref hyp == 0)%Q <-> _tokenize (_strip_accents ref) = _tokenize (_strip_accents hyp))).
Proof.
  split; [apply wer_nonneg|]. unfold _wer.
  destruct (_tokenize (_strip_accents ref)) as [|t r] eqn:Hr.
  - split; [intros _; reflexivity | intros []; reflexivity].
  - split; [discriminate|]. intros _.
    simpl length. rewrite ratio_zero_iff, levenshtein_rows. apply lev_zero_iff.
Qed.

(** ** Pronunciation feedback *)

Lemma pron_level_of_spec (w : Q) :
  (pron_level_of w = Excellent <-> (w <= 1 # 5)%Q) /\
  (pron_level_of w = Bien <-> (1 # 5 < w)%Q /\ (w <= 35 # 100)%Q) /\
  (pron_level_of w = Correct <-> (35 # 100 < w)%Q /\ (w <= 1 # 2)%Q) /\
  (pron_level_of w = Difficile <-> (1 # 2 < w)%Q).
Proof.
  unfold pron_level_of.
  destruct (Qle_bool w (2 # 10)) eqn:E1; [apply Qle_bool_iff in E1|];
  [|destruct (Qle_bool w (35 # 100)) eqn:E2; [apply Qle_bool_iff in E2|];
    [|destruct (Qle_bool w (5 # 10)) eqn:E3; [apply Qle_bool_iff in E3|]]];
  repeat match goal with
  | H : Qle_bool _ _ = false |- _ =>
      apply Bool.not_true_iff_false in H; rewrite Qle_bool_iff in H; apply Qnot_le_lt in H
  end;
  unfold Qle, Qlt in *; simpl in *;
  repeat split; intros; try discriminate; try lia;
  match goal with H : _ /\ _ |- _ => destruct H; lia | _ => idtac end.
Qed.

(** C6. With a target sentence set, the level reported by
    [check_pronunciation] is chosen by the first matching threshold, each
    bound belonging to the lower (better) level: [wer <= 0.20] is
    "Excellent", [0.20 < wer <= 0.35] "Bien", [0.35 < wer <= 0.50]
    "Correct" (needs work) and [wer > 0.50] "Difficile à comprendre". *)
Theorem pronunciation_tiers `{UnicodeTables} (target heard : pystr) :
  target <> [] ->
  let w := _wer target heard in
  check_pronunciation (Some target) heard = Report (pron_level_of w) (pron_score w) w /\
  (pron_level_of w = Excellent <-> (w <= 1 # 5)%Q) /\
  (pron_level_of w = Bien <-> (1 # 5 < w)%Q /\ (w <= 35 # 100)%Q) /\
  (pron_level_of w = Correct <-> (35 # 100 < w)%Q /\ (w <= 1 # 2)%Q) /\
  (pron_level_of w = Difficile <-> (1 # 2 < w)%Q).
Proof.
  intros Ht w. split.
  - destruct target as [|c t]; [congruence | reflexivity].
  - apply pron_level_of_spec.
Qed.

Lemma pronunciation_tiers_witness :
  py "a b c d e" <> [] /\
  _wer (py "a b c d e") (py "a b c d x") = (1 # 5)%Q /\
  pron_level_of (_wer (py "a b c d e") (py "a b c d x")) = Excellent.
Proof.
  split; [discriminate|]. split; [vm_compute; reflexivity|].
  destruct (pronunciation_tiers (py "a b c d e") (py "a b c d x") ltac:(discriminate))
    as [_ [HE _]].
  apply HE. vm_compute. discriminate.
Defined.


Example iso_ex1 : iso_of_seconds 0 = py "1970-01-01T00:00:00".
Proof. vm_compute. reflexivity. Qed.
Example iso_ex2 : iso_of_seconds 1700000000 = py "2023-11-14T22:13:20".
Proof. vm_compute. reflexivity. Qed.
Example iso_ex3 : parse_iso_seconds (py "2023-11-14T22:13:20") = ParsedNaive (1700000000 * us_per_second).
Proof. vm_compute. reflexivity. Qed.
Example iso_ex4 : iso_of_seconds (datetime_max / us_per_second) = py "9999-12-31T23:59:59".
Proof. vm_compute. reflexivity. Qed.
Example iso_ex5 : iso_of_seconds (datetime_min / us_per_second) = py "0001-01-01T00:00:00".
Proof. vm_compute. reflexivity. Qed.

(** ** Scheduler *)

Lemma clamp_cases box :
  let c := Z.max 1 (Z.min 5 box) in c = 1 \/ c = 2 \/ c = 3 \/ c = 4 \/ c = 5.
Proof. simpl. lia. Qed.

Lemma dict_get_clamp box :
  dict_get BOX_DELAYS_DAYS (Z.max 1 (Z.min 5 box)) 1 = delay_days (Z.max 1 (Z.min 5 box)).
Proof.
  destruct (clamp_cases box) as [E|[E|[E|[E|E]]]]; rewrite E; reflexivity.
Qed.

Lemma delay_days_clamp_range box :
  1 <= delay_days (Z.max 1 (Z.min 5 box)) <= 15.
Proof.
  destruct (clamp_cases box) as [E|[E|[E|[E|E]]]]; rewrite E; simpl; lia.
Qed.

(** C3 (as stated, refuted). [_next_due] writes [isoformat(timespec="seconds")],
    which drops the microseconds of [now]: half a second after the epoch,
    box 1 is due at 1970-01-02T00:00:00, not one day after [now]. *)
Lemma next_due_drops_microseconds :
  _next_due 1 500000 = Some (py "1970-01-02T00:00:00") /\
  fromisoformat (py "1970-01-02T00:00:00") = ParsedNaive (86400 * us_per_second) /\
  86400 * us_per_second <> 500000 + delay_days 1 * day_us.
Proof. split; [vm_compute; reflexivity | split; [vm_compute; reflexivity | vm_compute; discriminate]]. Qed.

(** C3 (amended). For every integer box (0 clamps to 1, 9 clamps to 5) and
    every [now], [_next_due(box, now)] is the ISO string, at seconds
    precision, of [now] plus [delay_days[clamp(box, 1, 5)]] days with the
    microseconds of [now] dropped; when that sum leaves the range of
    [datetime] it raises [OverflowError]. *)
Theorem next_due_delay `{DatetimeLib} (box now : Z) :
  let d := delay_days (Z.max 1 (Z.min 5 box)) in
  _next_due box now =
    (if dt_in_range (now + d * day_us)
     then Some (isoformat_seconds (now / us_per_second + d * 86400))
     else None) /\
  delay_days (Z.max 1 (Z.min 5 0)) = 1 /\ delay_days (Z.max 1 (Z.min 5 9)) = 15.
Proof.
  intros d. split; [|split; reflexivity].
  unfold _next_due. rewrite dict_get_clamp. fold d.
  destruct (dt_in_range (now + d * day_us)); [|reflexivity].
  f_equal. f_equal. unfold day_us, us_per_second.
  replace (now + d * (86400 * 1000000)) with (now + (d * 86400) * 1000000) by ring.
  apply Z.div_add. lia.
Qed.

Lemma next_due_in_range `{DatetimeLib} (box now : Z) :
  dt_in_range now = true -> dt_in_range (now + 15 * day_us) = true ->
  exists d, _next_due box now = Some d.
Proof.
  intros H1 H2. unfold _next_due. rewrite dict_get_clamp.
  pose proof (delay_days_clamp_range box).
  unfold dt_in_range in *. rewrite Bool.andb_true_iff, !Z.leb_le in H1, H2.
  destruct ((datetime_min <=? now + delay_days (Z.max 1 (Z.min 5 box)) * day_us)
            && (now + delay_days (Z.max 1 (Z.min 5 box)) * day_us <=? datetime_max)) eqn:E.
  - eexists; reflexivity.
  - exfalso. apply Bool.not_true_iff_false in E. apply E.
    rewrite Bool.andb_true_iff, !Z.leb_le. unfold day_us, us_per_second in *. nia.
Qed.

(** ** Quiz state machine *)

Section QuizProofs.

Context `{UnicodeTables} `{DatetimeLib}.

Lemma next_question_empty (s : tutor) :
  quiz_queue s = [] -> next_question s = (Ret QuizFinished, set_quiz [] None s).
Proof. intros Hq. unfold next_question. rewrite Hq. reflexivity. Qed.

Lemma due_loop_in (now : Z) (items : list item) : forall k i it l,
  items !! i = Some it -> due_check it now = Ret true ->
  due_loop k items now = Ret l -> In (k + i)%nat l.
Proof.
  induction items as [|it0 items IH]; intros k i it l Hi Hd Hl; [discriminate|].
  simpl in Hl. destruct i as [|i].
  - simpl in Hi. injection Hi as <-. rewrite Hd in Hl.
    destruct (due_loop (S k) items now); [|discriminate].
    injection Hl as <-. left. lia.
  - simpl in Hi. destruct (due_check it0 now) as [b|]; [|discriminate].
    destruct (due_loop (S k) items now) as [l'|] eqn:E; [|discriminate].
    injection Hl as <-.
    assert (In (S k + i)%nat l') by (eapply IH; eauto).
    replace (k + S i)%nat with (S k + i)%nat by lia.
    destruct b; [right|]; assumption.
Qed.

End QuizProofs.

(** C8. With no question outstanding, [answer_quiz] returns the "no active
    question" message and leaves the whole state unchanged; in particular
    once the last queued item has been graded (the chained [next_question]
    answering "Quiz terminé"), a further [answer_quiz] changes nothing. *)
Theorem answer_without_question_is_noop `{UnicodeTables} `{DatetimeLib} :
  (forall s ans now, quiz_current s = None -> answer_quiz s ans now = (Ret NoActiveQuestion, s)) /\
  (forall s i it ans now ans' now',
     quiz_queue s = [] -> quiz_current s = Some i -> vocab s !! i = Some it ->
     dt_in_range now = true -> dt_in_range (now + 15 * day_us) = true ->
     exists ok g s', answer_quiz s ans now = (Ret (Verdict ok g QuizFinished), s') /\
       quiz_current s' = None /\ quiz_queue s' = [] /\
       answer_quiz s' ans' now' = (Ret NoActiveQuestion, s')).
Proof.
  split.
  - intros s ans now Hc. unfold answer_quiz. rewrite Hc. reflexivity.
  - intros s i it ans now ans' now' Hq Hc Hi Hn1 Hn2.
    unfold answer_quiz at 1. rewrite Hc, Hi.
    set (ok := quiz_answer_ok _ _ _ _).
    destruct (next_due_in_range (if ok then Z.min 5 (box it + 1) else 1) now Hn1 Hn2) as [d Hd].
    rewrite Hd. rewrite next_question_empty by (simpl; exact Hq).
    eexists _, _, _. split; [reflexivity|]. split; [reflexivity|]. split; [reflexivity|].
    reflexivity.
Qed.



Lemma answer_without_question_is_noop_witness :
  exists ok g s', answer_quiz (set_quiz [] (Some 0%nat) (set_vocab [sample_item] fresh_tutor))
                    (py "chat") sample_now = (Ret (Verdict ok g QuizFinished), s') /\
    quiz_current s' = None /\ quiz_queue s' = [] /\
    answer_quiz s' (py "chat") sample_now = (Ret NoActiveQuestion, s').
Proof.
  apply (proj2 answer_without_question_is_noop
           (set_quiz [] (Some 0%nat) (set_vocab [sample_item] fresh_tutor))
           0%nat sample_item (py "chat") sample_now (py "chat") sample_now);
    vm_compute; reflexivity.
Defined.

(** C9. An item whose stored [next_due] is absent or does not parse is
    treated as due at the epoch: the loop body of [_due_indices] returns
    "due" for it without raising (for any clock reading after 1970), and
    its index is in every list [_due_indices] returns. *)
Theorem malformed_next_due_is_due `{DatetimeLib} (v : list item) (now : Z) (i : nat) (it : item) :
  fromisoformat (py "1970-01-01T00:00:00") = ParsedNaive 0 ->
  0 <= now -> v !! i = Some it ->
  (next_due it = None \/ exists raw, next_due it = Some raw /\ fromisoformat raw = ParseError) ->
  due_check it now = Ret true /\ (forall l, _due_indices v now = Ret l -> In i l).
Proof.
  intros Hepoch Hnow Hi Hbad.
  assert (Hd : due_check it now = Ret true).
  { unfold due_check. destruct Hbad as [-> | [raw [-> Hraw]]].
    - rewrite Hepoch. f_equal. apply Z.leb_le. exact Hnow.
    - rewrite Hraw. f_equal. apply Z.leb_le. exact Hnow. }
  split; [exact Hd|].
  intros l Hl. apply (due_loop_in now v 0 i it l Hi Hd Hl).
Qed.


Lemma malformed_next_due_is_due_witness :
  due_check corrupted_item sample_now = Ret true /\
  (forall l, _due_indices [sample_item; corrupted_item] sample_now = Ret l -> In 1%nat l).
Proof.
  apply (malformed_next_due_is_due [sample_item; corrupted_item] sample_now 1 corrupted_item).
  - vm_compute. reflexivity.
  - unfold sample_now, us_per_second. lia.
  - reflexivity.
  - right. exists (py "not a date"). split; reflexivity.
Defined.

(** ** The Leitner invariant *)

Section InvariantProofs.

Context `{UnicodeTables} `{DatetimeLib}.

Lemma inv_fresh : tutor_inv fresh_tutor.
Proof. split; [constructor | split; [constructor | discriminate]]. Qed.

Lemma inv_reload s : tutor_inv s -> tutor_inv (reloaded_tutor s).
Proof. intros [Hb _]. split; [exact Hb | split; [constructor | discriminate]]. Qed.

Lemma next_question_vocab s r s' : next_question s = (r, s') -> vocab s' = vocab s.
Proof.
  unfold next_question. destruct (quiz_queue s) as [|i q].
  - intros [= _ <-]. reflexivity.
  - destruct (vocab s !! i) as [it|];
      [destruct (pystr_eqb (quiz_direction s) en2fr)|]; intros [= _ <-]; reflexivity.
Qed.

Lemma next_question_inv s r s' : tutor_inv s -> next_question s = (r, s') -> tutor_inv s'.
Proof.
  intros [Hb [Hq Hc]]. unfold next_question. destruct (quiz_queue s) as [|i q] eqn:Eq.
  - intros [= _ <-]. split; [exact Hb | split; [constructor | discriminate]].
  - inversion Hq as [|? ? Hi Hq']; subst.
    assert (E : tutor_inv (set_quiz q (Some i) s)).
    { split; [exact Hb | split; [exact Hq' | intros j [= <-]; exact Hi]]. }
    destruct (vocab s !! i) as [it|];
      [destruct (pystr_eqb (quiz_direction s) en2fr)|]; intros [= _ <-]; exact E.
Qed.

Lemma answer_quiz_inv s ans now r s' : tutor_inv s -> answer_quiz s ans now = (r, s') -> tutor_inv s'.
Proof.
  intros Hinv. pose proof Hinv as [Hb [Hq Hc]]. unfold answer_quiz.
  destruct (quiz_current s) as [i|] eqn:Ec; [|intros [= _ <-]; exact Hinv].
  destruct (vocab s !! i) as [it|] eqn:Ei; [|intros [= _ <-]; exact Hinv].
  pose proof (Forall_lookup_1 _ _ _ _ Hb Ei) as Hit. unfold item_box_ok in Hit.
  set (ok := quiz_answer_ok _ _ _ _).
  set (b := if ok then Z.min 5 (box it + 1) else 1).
  assert (Hbr : 1 <= b <= 5) by (unfold b; destruct ok; lia).
  assert (Hset : forall it', box it' = b ->
            tutor_inv (set_vocab (<[i := it']> (vocab s)) s)).
  { intros it' Hbox. split; [|split].
    - apply Forall_insert; [exact Hb|]. unfold item_box_ok. rewrite Hbox. exact Hbr.
    - simpl. rewrite length_insert. exact Hq.
    - intros j Hj. simpl in Hj |- *. rewrite length_insert.
      apply (proj2 (proj2 Hinv)). exact Hj. }
  destruct (_next_due b now) as [d|].
  - destruct (next_question _) as [[nxt|e] s2] eqn:En;
      intros [= _ <-]; (eapply next_question_inv; [| exact En]; apply Hset; reflexivity).
  - intros [= _ <-]. apply Hset. reflexivity.
Qed.

Lemma due_loop_bound now (items : list item) : forall k l,
  due_loop k items now = Ret l ->
  Forall (fun j => (k <= j < k + length items)%nat) l.
Proof.
  induction items as [|it items IH]; intros k l Hl; simpl in Hl.
  - injection Hl as <-. constructor.
  - destruct (due_check it now) as [b|]; [|discriminate].
    destruct (due_loop (S k) items now) as [l'|] eqn:E; [|discriminate].
    injection Hl as <-. specialize (IH (S k) l' E).
    assert (Forall (fun j => (k <= j < k + length (it :: items))%nat) l').
    { eapply Forall_impl; [exact IH|]. simpl. intros j Hj. lia. }
    destruct b; [constructor; [simpl; lia|]|]; assumption.
Qed.

Lemma insert_by_box_perm p l : Permutation (insert_by_box p l) (p :: l).
Proof.
  induction l as [|q l IH]; simpl; [reflexivity|].
  destruct (box (snd p) <=? box (snd q)); [reflexivity|].
  rewrite IH. apply perm_swap.
Qed.

Lemma sort_by_box_perm l : Permutation (sort_by_box l) l.
Proof.
  induction l as [|p l IH]; simpl; [reflexivity|].
  rewrite insert_by_box_perm, IH. reflexivity.
Qed.

Lemma map_fst_zip_in {X : Type} (l1 : list nat) (l2 : list X) :
  Forall (fun j => In j l1) (map fst (zip l1 l2)).
Proof.
  revert l2. induction l1 as [|a l1 IH]; intros [|x l2]; simpl; try constructor.
  - left. reflexivity.
  - eapply Forall_impl; [apply IH|]. intros j Hj. right. exact Hj.
Qed.

Lemma fallback_indices_bound (v : list item) :
  Forall (fun j => (j < length v)%nat) (map fst (sort_by_box (enumerate v))).
Proof.
  apply List.Forall_forall. intros j Hj.
  apply (Permutation_in _ (Permutation_map fst (sort_by_box_perm (enumerate v)))) in Hj.
  pose proof (map_fst_zip_in (seq 0 (length v)) v) as HF.
  rewrite List.Forall_forall in HF. apply HF, in_seq in Hj. lia.
Qed.

Lemma start_quiz_inv s count d now shuffle r s' :
  tutor_inv s -> (forall l, Permutation (shuffle l) l) ->
  start_quiz s count d now shuffle = (r, s') -> tutor_inv s'.
Proof.
  intros Hinv Hsh. unfold start_quiz.
  destruct (vocab s) as [|it0 v0] eqn:Ev; [intros [= _ <-]; exact Hinv|].
  cbv beta iota.
  set (s1 := set_direction _ s).
  assert (Hinv1 : tutor_inv s1) by exact Hinv.
  destruct (_due_indices (vocab s1) now) as [due0|e] eqn:Ed; [|intros [= _ <-]; exact Hinv1].
  set (due := match due0 with [] => _ | _ => due0 end).
  assert (Hdue : Forall (fun j => (j < length (vocab s))%nat) due).
  { unfold due. destruct due0 as [|j0 l0].
    - apply fallback_indices_bound.
    - apply due_loop_bound in Ed. eapply Forall_impl; [exact Ed|]. simpl. lia. }
  intros En. eapply next_question_inv; [|exact En].
  split; [exact (proj1 Hinv) | split; [|discriminate]].
  apply Forall_take. apply List.Forall_forall. intros j Hj.
  rewrite List.Forall_forall in Hdue. apply Hdue.
  apply (Permutation_in _ (Hsh due) Hj).
Qed.

Lemma add_vocab_inv s w t e now r s' :
  tutor_inv s -> add_vocab s w t e now = (r, s') -> tutor_inv s'.
Proof.
  intros [Hb [Hq Hc]]. unfold add_vocab.
  destruct (_next_due 1 now) as [d|]; [|intros [= _ <-]; split; [|split]; assumption].
  intros [= _ <-]. split; [|split]; simpl.
  - apply Forall_app. split; [exact Hb|]. constructor; [unfold item_box_ok; simpl; lia | constructor].
  - eapply Forall_impl; [exact Hq|]. intros k Hk. simpl in Hk. rewrite length_app. simpl. lia.
  - intros i Hi. specialize (Hc i Hi). rewrite length_app. lia.
Qed.

Lemma step_inv s s' : tutor_inv s -> step s s' -> tutor_inv s'.
Proof.
  intros Hinv Hst. destruct Hst.
  - eapply add_vocab_inv; eauto.
  - eapply start_quiz_inv; eauto.
  - eapply next_question_inv; eauto.
  - eapply answer_quiz_inv; eauto.
  - destruct Hinv as [Hb [Hq Hc]]. split; [exact Hb | split; [exact Hq | exact Hc]].
Qed.

Lemma reachable_inv s : reachable s -> tutor_inv s.
Proof.
  induction 1.
  - apply inv_fresh.
  - apply inv_reload. assumption.
  - eapply step_inv; eauto.
Qed.

End InvariantProofs.

(** ** Which calls change [next_due] *)

Section NextDueProofs.

Context `{UnicodeTables} `{DatetimeLib}.

Lemma start_quiz_vocab s count d now shuffle r s' :
  start_quiz s count d now shuffle = (r, s') -> vocab s' = vocab s.
Proof.
  unfold start_quiz. destruct (vocab s) as [|it0 v0] eqn:Ev; [intros [= _ <-]; exact Ev|].
  cbv beta iota. destruct (_due_indices _ now) as [due0|e].
  - intros En. apply next_question_vocab in En. rewrite En. exact Ev.
  - intros [= _ <-]. exact Ev.
Qed.

Lemma answer_quiz_next_due s ans now r s' : answer_quiz s ans now = (r, s') ->
  forall j it', vocab s' !! j = Some it' ->
  (exists it, vocab s !! j = Some it /\ next_due it' = next_due it) \/
  (exists now', next_due it' = _next_due (box it') now').
Proof.
  unfold answer_quiz.
  destruct (quiz_current s) as [i|]; [|intros [= _ <-] j it' Hj; left; eauto].
  destruct (vocab s !! i) as [it|] eqn:Ei; [|intros [= _ <-] j it' Hj; left; eauto].
  set (ok := quiz_answer_ok _ _ _ _).
  set (b := if ok then Z.min 5 (box it + 1) else 1).
  destruct (_next_due b now) as [d|] eqn:Ed.
  - destruct (next_question _) as [[nxt|e] s2] eqn:En; intros [= _ <-];
      apply next_question_vocab in En; simpl in En; rewrite En;
      intros j it' Hj; apply list_lookup_insert_Some in Hj as [[<- [<- _]] | [_ Hj]];
      [right; exists now; simpl; symmetry; exact Ed | | right; exists now; simpl; symmetry; exact Ed | ];
      left; eauto.
  - intros [= _ <-] j it' Hj. simpl in Hj.
    apply list_lookup_insert_Some in Hj as [[<- [<- _]] | [_ Hj]]; left; eauto.
Qed.

Lemma step_next_due s s' : step s s' ->
  forall j it', vocab s' !! j = Some it' ->
  (exists it, vocab s !! j = Some it /\ next_due it' = next_due it) \/
  (exists now, next_due it' = _next_due (box it') now).
Proof.
  destruct 1 as [s w t e now r s' _ Hadd | s count d now shuffle r s' _ _ Hst
                | s r s' Hn | s ans now r s' _ Ha | s lv md tp pt];
    intros j it' Hj.
  - unfold add_vocab in Hadd. destruct (_next_due 1 now) as [d|] eqn:Ed.
    + injection Hadd as _ <-. simpl in Hj. rewrite lookup_app in Hj.
      destruct (vocab s !! j) as [it|] eqn:Ej.
      * left. injection Hj as <-. eauto.
      * right. exists now. destruct (j - length (vocab s))%nat; [|discriminate].
        injection Hj as <-. simpl. symmetry. exact Ed.
    + injection Hadd as _ <-. left. eauto.
  - apply start_quiz_vocab in Hst. rewrite Hst in Hj. left. eauto.
  - apply next_question_vocab in Hn. rewrite Hn in Hj. left. eauto.
  - eapply answer_quiz_next_due; eauto.
  - left. simpl in Hj. eauto.
Qed.

Lemma next_question_ret s : tutor_inv s -> exists r s', next_question s = (Ret r, s').
Proof.
  intros [_ [Hq _]]. unfold next_question. destruct (quiz_queue s) as [|i q].
  - eauto.
  - inversion Hq as [|? ? Hi _]; subst.
    destruct (lookup_lt_is_Some_2 (vocab s) i Hi) as [it Hit]. rewrite Hit.
    destruct (pystr_eqb (quiz_direction s) en2fr); eauto.
Qed.

End NextDueProofs.

(** C2. Grading the current item [it] of a reachable tutor (the clock
    reading being a datetime at least 15 days before [datetime.max]):
    its box was in [1, 5]; an accepted answer sets it to
    [min(5, box + 1)] (a strict increase below 5, a fixed point at 5), a
    rejected one to 1; the new box is in [1, 5]; [next_due] becomes
    [_next_due(new box, now)], one history entry is appended, and no other
    item changes. Moreover every tool call leaves each item's [next_due]
    unchanged unless it sets it to [_next_due] of the item's box: only the
    grading update and item creation write [next_due]. *)
Theorem leitner_box_update `{UnicodeTables} `{DatetimeLib} :
  (forall s i it ans now,
     reachable s -> quiz_current s = Some i -> vocab s !! i = Some it ->
     dt_in_range now = true -> dt_in_range (now + 15 * day_us) = true ->
     let ok := quiz_answer_ok (pystr_eqb (quiz_direction s) en2fr) (word it) (translation it) ans in
     let b := if ok then Z.min 5 (box it + 1) else 1 in
     1 <= box it <= 5 /\ 1 <= b <= 5 /\
     (ok = true -> box it < 5 -> box it < b) /\ (ok = true -> box it = 5 -> b = 5) /\
     (ok = false -> b = 1) /\
     exists r s' d, answer_quiz s ans now = (Ret r, s') /\ _next_due b now = Some d /\
       vocab s' !! i = Some {| word := word it; translation := translation it;
                               example := example it; box := b; next_due := Some d;
                               history := history it ++
                                 [{| h_t := isoformat_seconds (now / us_per_second);
                                     h_ok := ok; h_input := ans |}] |} /\
       (forall j, j <> i -> vocab s' !! j = vocab s !! j)) /\
  (forall s s', step s s' -> forall j it', vocab s' !! j = Some it' ->
     (exists it, vocab s !! j = Some it /\ next_due it' = next_due it) \/
     (exists now, next_due it' = _next_due (box it') now)).
Proof.
  split; [|exact step_next_due].
  intros s i it ans now Hr Hc Hi Hn1 Hn2 ok b.
  pose proof (reachable_inv s Hr) as Hinv.
  pose proof (Forall_lookup_1 _ _ _ _ (proj1 Hinv) Hi) as Hit. unfold item_box_ok in Hit.
  split; [exact Hit|].
  split; [unfold b; destruct ok; lia|].
  split; [intros Hok Hlt; unfold b; rewrite Hok; lia|].
  split; [intros Hok Heq; unfold b; rewrite Hok; lia|].
  split; [intros Hok; unfold b; rewrite Hok; reflexivity|].
  destruct (next_due_in_range b now Hn1 Hn2) as [d Hd].
  set (it2 := {| word := word it; translation := translation it;
                 example := example it; box := b; next_due := Some d;
                 history := history it ++
                   [{| h_t := isoformat_seconds (now / us_per_second);
                       h_ok := ok; h_input := ans |}] |}).
  set (s1 := set_vocab (<[i := it2]> (vocab s)) s).
  assert (Hinv1 : tutor_inv s1).
  { destruct Hinv as [Hb [Hq Hcur]]. split; [|split].
    - apply Forall_insert; [exact Hb|]. unfold item_box_ok. simpl. unfold b; destruct ok; lia.
    - simpl. rewrite length_insert. exact Hq.
    - intros j Hj. simpl in Hj |- *. rewrite length_insert. apply Hcur. exact Hj. }
  destruct (next_question_ret s1 Hinv1) as [nxt [s2 En]].
  assert (Ev : vocab s2 = <[i := it2]> (vocab s)).
  { apply next_question_vocab in En. exact En. }
  exists (Verdict ok (if pystr_eqb (quiz_direction s) en2fr then word it else translation it) nxt), s2, d.
  split; [|split; [exact Hd|split]].
  - unfold answer_quiz. rewrite Hc, Hi. fold ok. fold b. rewrite Hd.
    change (next_question s1 = (Ret nxt, s2)) in En. unfold s1, it2 in En.
    unfold push_history, set_box, set_next_due. simpl. rewrite En. reflexivity.
  - rewrite Ev. apply list_lookup_insert_eq. apply lookup_lt_Some in Hi. exact Hi.
  - intros j Hj. rewrite Ev. apply list_lookup_insert_ne. congruence.
Qed.

Lemma leitner_box_update_witness :
  vocab quiz_demo !! 0%nat = Some quiz_demo_item /\ 1 <= box quiz_demo_item <= 5.
Proof.
  assert (Hr : reachable quiz_demo).
  { eapply reach_step; [eapply reach_step; [apply reach_fresh|]|].
    - eapply (step_add fresh_tutor (py "chat") (py "cat") None sample_now);
        [vm_compute; reflexivity | apply surjective_pairing].
    - eapply (step_start quiz_demo_added 1 (py "en2fr") quiz_demo_now (fun l => l));
        [vm_compute; reflexivity | intros l; reflexivity | apply surjective_pairing]. }
  split; [vm_compute; reflexivity|].
  apply (proj1 leitner_box_update quiz_demo 0%nat quiz_demo_item (py "chat") quiz_demo_now Hr);
    vm_compute; reflexivity.
Defined.

(** ** More on the token edit distance *)

Section LevenshteinMore.

Context {A : Type} `{EqDecision A}.

Local Open Scope nat_scope.

Lemma subst_cost_sym (x y : A) : subst_cost x y = subst_cost y x.
Proof. unfold subst_cost. destruct (decide (x = y)), (decide (y = x)); congruence. Qed.

Lemma subst_cost_triangle (x y z : A) : subst_cost x z <= subst_cost x y + subst_cost y z.
Proof.
  unfold subst_cost.
  destruct (decide (x = z)), (decide (x = y)), (decide (y = z)); subst; try lia; congruence.
Qed.

Lemma edit_script_swap (a b : list A) k : edit_script a b k -> edit_script b a k.
Proof.
  induction 1.
  - constructor.
  - now apply es_ins.
  - now apply es_del.
  - rewrite subst_cost_sym. now apply es_sub.
Qed.

Lemma lev_sym (a b : list A) : lev a b = lev b a.
Proof.
  apply Nat.le_antisymm; apply edit_script_lev_le, edit_script_swap, lev_edit_script.
Qed.

Lemma edit_script_length (a b : list A) k :
  edit_script a b k -> length a - length b <= k /\ length b - length a <= k.
Proof. induction 1; simpl; lia. Qed.

Lemma lev_length_lower (a b : list A) :
  length a - length b <= lev a b /\ length b - length a <= lev a b.
Proof. apply edit_script_length, lev_edit_script. Qed.

Lemma lev_length_upper (a b : list A) : lev a b <= Nat.max (length a) (length b).
Proof.
  revert b. induction a as [|x a IH]; intros b.
  - rewrite lev_nil_l. lia.
  - destruct b as [|y b].
    + rewrite lev_nil_r. simpl. lia.
    + rewrite lev_cons. pose proof (min3_le (lev a (y :: b) + 1) (lev (x :: a) b + 1)
        (lev a b + subst_cost x y)) as [_ [_ Hm]].
      specialize (IH b). assert (subst_cost x y <= 1) by (unfold subst_cost; destruct decide; lia).
      cbn [length]. lia.
Qed.

Lemma lev_sub_le (x z : A) (a c : list A) : lev (x :: a) (z :: c) <= lev a c + subst_cost x z.
Proof. rewrite lev_cons. apply min3_le. Qed.

Lemma lev_triangle_n n : forall (a b c : list A),
  length a + length b + length c <= n -> lev a c <= lev a b + lev b c.
Proof.
  induction n as [n IH] using lt_wf_ind. intros a b c Hn.
  destruct b as [|y b'].
  - rewrite lev_nil_r, lev_nil_l. pose proof (lev_length_upper a c). lia.
  - destruct a as [|x a'].
    + rewrite !lev_nil_l. pose proof (lev_length_lower (y :: b') c). lia.
    + destruct c as [|z c'].
      * rewrite !lev_nil_r. pose proof (lev_length_lower (x :: a') (y :: b')). lia.
      * simpl in Hn.
        assert (IHn : forall a0 b0 c0 : list A,
                  length a0 + length b0 + length c0 < n -> lev a0 c0 <= lev a0 b0 + lev b0 c0).
        { intros a0 b0 c0 H0. apply (IH (length a0 + length b0 + length c0)); lia. }
        assert (Hab := lev_cons x y a' b'). assert (Hbc := lev_cons y z b' c').
        destruct (min3_cases (lev a' (y :: b') + 1) (lev (x :: a') b' + 1)
                   (lev a' b' + subst_cost x y)) as [E1|[E1|E1]]; rewrite E1 in Hab.
        -- pose proof (lev_del_le x a' (z :: c')).
           pose proof (IHn a' (y :: b') (z :: c') ltac:(simpl; lia)). lia.
        -- destruct (min3_cases (lev b' (z :: c') + 1) (lev (y :: b') c' + 1)
                      (lev b' c' + subst_cost y z)) as [E2|[E2|E2]]; rewrite E2 in Hbc.
           ++ pose proof (IHn (x :: a') b' (z :: c') ltac:(simpl; lia)). lia.
           ++ pose proof (lev_ins_le z (x :: a') c').
              pose proof (IHn (x :: a') (y :: b') c' ltac:(simpl; lia)). lia.
           ++ pose proof (lev_ins_le z (x :: a') c').
              pose proof (IHn (x :: a') b' c' ltac:(simpl; lia)). lia.
        -- destruct (min3_cases (lev b' (z :: c') + 1) (lev (y :: b') c' + 1)
                      (lev b' c' + subst_cost y z)) as [E2|[E2|E2]]; rewrite E2 in Hbc.
           ++ pose proof (lev_del_le x a' b').
              pose proof (IHn (x :: a') b' (z :: c') ltac:(simpl; lia)). lia.
           ++ pose proof (lev_ins_le z (x :: a') c').
              pose proof (IHn (x :: a') (y :: b') c' ltac:(simpl; lia)). lia.
           ++ pose proof (lev_sub_le x z a' c').
              pose proof (subst_cost_triangle x y z).
              pose proof (IHn a' b' c' ltac:(lia)). lia.
Qed.

End LevenshteinMore.

(** _levenshtein is a metric on token sequences: zero exactly on equal
    sequences, symmetric, and subject to the triangle inequality. *)
Theorem levenshtein_metric {A : Type} `{EqDecision A} (a b c : list A) :
  (_levenshtein a b = 0%nat <-> a = b) /\
  _levenshtein a b = _levenshtein b a /\
  (_levenshtein a c <= _levenshtein a b + _levenshtein b c)%nat.
Proof.
  rewrite !levenshtein_rows. split; [apply lev_zero_iff|]. split; [apply lev_sym|].
  apply (lev_triangle_n (length a + length b + length c)). lia.
Qed.

(** _levenshtein a b lies between the difference of the lengths and the
    longer length. *)
Theorem levenshtein_length_bounds {A : Type} `{EqDecision A} (a b : list A) :
  (length a - length b <= _levenshtein a b)%nat /\
  (length b - length a <= _levenshtein a b)%nat /\
  (_levenshtein a b <= Nat.max (length a) (length b))%nat.
Proof.
  rewrite levenshtein_rows. pose proof (lev_length_lower a b). pose proof (lev_length_upper a b).
  lia.
Qed.

(** ** More on the word error rate and the pronunciation check *)

Lemma ratio_le_ratio (d m n : nat) : (0 < n)%nat -> (d <= m)%nat ->
  (inject_Z (Z.of_nat d) / inject_Z (Z.of_nat n) <= inject_Z (Z.of_nat m) / inject_Z (Z.of_nat n))%Q.
Proof.
  intros Hn Hdm. destruct n as [|n]; [lia|].
  change (Z.of_nat (S n)) with (Zpos (Pos.of_succ_nat n)).
  unfold Qle, Qdiv, Qmult, Qinv, inject_Z; simpl. nia.
Qed.

Lemma ratio_self (n : nat) : (0 < n)%nat ->
  (inject_Z (Z.of_nat n) / inject_Z (Z.of_nat n) == 1)%Q.
Proof.
  intros Hn. destruct n as [|n]; [lia|].
  change (Z.of_nat (S n)) with (Zpos (Pos.of_succ_nat n)).
  unfold Qeq, Qdiv, Qmult, Qinv, inject_Z; simpl. lia.
Qed.

Lemma pron_level_of_resp (w w' : Q) : (w == w')%Q -> pron_level_of w = pron_level_of w'.
Proof.
  intros E. unfold pron_level_of.
  assert (Hc : forall c, Qle_bool w c = Qle_bool w' c).
  { intros c. apply eq_true_iff_eq. rewrite !Qle_bool_iff. rewrite E. reflexivity. }
  rewrite !Hc. reflexivity.
Qed.

Lemma pron_score_num0 (w : Q) : Qnum w = 0 -> pron_score w = 100.
Proof. intros E. unfold pron_score, f64_of_Q. rewrite E. reflexivity. Qed.

(** [n / n] is the double [1.0] for every [n > 0]. *)
Lemma f64_int_div_self (p : positive) :
  f64_int_div (Zpos p) p = S754_finite false (2 ^ 52) (-52).
Proof.
  unfold f64_int_div, SFdiv_core_binary.
  replace (Zdigits2 (Zpos p) + 0 - (Zdigits2 (Zpos p) + 0)) with 0 by lia.
  change (Z.min (fexp f64_prec f64_emax 0) (0 - 0)) with (-53).
  change (0 - 0 - -53) with 53.
  cbv beta iota zeta.
  rewrite Z.shiftl_mul_pow2 by lia.
  assert (Hd : Z.div_eucl (Zpos p * 2 ^ 53) (Zpos p) = (2 ^ 53, 0)).
  { pose proof (Z.div_mul (2 ^ 53) (Zpos p) ltac:(lia)) as H1.
    pose proof (Z.mod_mul (2 ^ 53) (Zpos p) ltac:(lia)) as H2.
    rewrite Z.mul_comm in H1, H2.
    unfold Z.div, Z.modulo in H1, H2. destruct (Z.div_eucl (Zpos p * 2 ^ 53) (Zpos p)).
    simpl in H1, H2. subst. reflexivity. }
  rewrite Hd.
  assert (Hl : new_location (Zpos p) 0 = loc_Exact).
  { unfold new_location, new_location_even, new_location_odd. destruct (Z.even (Zpos p)); reflexivity. }
  rewrite Hl. reflexivity.
Qed.

Lemma pron_score_self (n : nat) : (0 < n)%nat ->
  pron_score (inject_Z (Z.of_nat n) / inject_Z (Z.of_nat n)) = 0.
Proof.
  intros Hn. destruct n as [|n]; [lia|].
  change (Z.of_nat (S n)) with (Zpos (Pos.of_succ_nat n)).
  unfold pron_score, f64_of_Q, Qdiv, Qmult, Qinv, inject_Z. simpl Qnum. simpl Qden.
  rewrite Z.mul_1_r, Pos.mul_1_l, f64_int_div_self. reflexivity.
Qed.






Section WerMore.

Context `{UnicodeTables}.

Lemma wer_self (ref : pystr) : (_wer ref ref == 0)%Q.
Proof.
  unfold _wer. destruct (_tokenize (_strip_accents ref)) as [|t r]; [reflexivity|].
  simpl length. apply ratio_zero_iff. rewrite levenshtein_rows. apply lev_zero_iff. reflexivity.
Qed.

Lemma wer_silence (ref hyp : pystr) :
  _tokenize (_strip_accents ref) <> [] -> _tokenize (_strip_accents hyp) = [] ->
  (_wer ref hyp == 1)%Q.
Proof.
  intros Hr Hh. unfold _wer. rewrite Hh.
  destruct (_tokenize (_strip_accents ref)) as [|t r]; [congruence|].
  rewrite levenshtein_rows, lev_nil_r. apply ratio_self. simpl. lia.
Qed.

Lemma wer_self_score (ref : pystr) : pron_score (_wer ref ref) = 100.
Proof.
  apply pron_score_num0. unfold _wer. destruct (_tokenize (_strip_accents ref)) as [|t r]; [reflexivity|].
  rewrite levenshtein_rows. replace (lev (t :: r) (t :: r)) with O by (symmetry; apply lev_zero_iff; reflexivity).
  reflexivity.
Qed.

Lemma wer_silence_score (ref hyp : pystr) :
  _tokenize (_strip_accents ref) <> [] -> _tokenize (_strip_accents hyp) = [] ->
  pron_score (_wer ref hyp) = 0.
Proof.
  intros Hr Hh. unfold _wer. rewrite Hh.
  destruct (_tokenize (_strip_accents ref)) as [|t r]; [congruence|].
  rewrite levenshtein_rows, lev_nil_r. apply pron_score_self. simpl. lia.
Qed.

End WerMore.

(** _wer: a perfect transcript has error rate 0; for a reference with
    at least one token, a transcript without tokens has error rate exactly
    1, and in general the rate is at most max(len r, len h) / len r, for the
    token lists r and h of the reference and the transcript. *)
Theorem wer_self_silence_upper `{UnicodeTables} (ref hyp : pystr) :
  _tokenize (_strip_accents ref) <> [] ->
  (_wer ref ref == 0)%Q /\
  (_tokenize (_strip_accents hyp) = [] -> (_wer ref hyp == 1)%Q) /\
  (_wer ref hyp <= inject_Z (Z.of_nat (Nat.max (length (_tokenize (_strip_accents ref)))
                                               (length (_tokenize (_strip_accents hyp)))))
                   / inject_Z (Z.of_nat (length (_tokenize (_strip_accents ref)))))%Q.
Proof.
  intros Hr. split; [apply wer_self|]. split; [apply wer_silence; exact Hr|].
  unfold _wer. destruct (_tokenize (_strip_accents ref)) as [|t r] eqn:Er; [congruence|].
  apply ratio_le_ratio; [simpl; lia|].
  rewrite levenshtein_rows. apply lev_length_upper.
Qed.

Lemma wer_self_silence_upper_witness :
  (_wer phrase_gare phrase_gare == 0)%Q /\ (_wer phrase_gare [] == 1)%Q.
Proof.
  destruct (@wer_self_silence_upper latin1_tables phrase_gare [] ltac:(vm_compute; intro Hc; discriminate Hc)) as [H1 [H2 _]].
  split; [exact H1 | apply H2; reflexivity].
Defined.

(** check_pronunciation: repeating the target sentence exactly is rated
    "Excellent" with score 100 and WER 0; for a target with at least one
    token, a transcript without tokens is rated "Difficile" with score 0 and
    WER 1. *)
Theorem check_pronunciation_extremes `{UnicodeTables} (target heard : pystr) :
  target <> [] ->
  (exists w, check_pronunciation (Some target) target = Report Excellent 100 w /\ (w == 0)%Q) /\
  (_tokenize (_strip_accents target) <> [] -> _tokenize (_strip_accents heard) = [] ->
   exists w, check_pronunciation (Some target) heard = Report Difficile 0 w /\ (w == 1)%Q).
Proof.
  intros Ht. destruct target as [|c t]; [congruence|]. split.
  - exists (_wer (c :: t) (c :: t)). pose proof (wer_self (c :: t)) as E. split; [|exact E].
    simpl. rewrite (pron_level_of_resp _ _ E), (wer_self_score (c :: t)). reflexivity.
  - intros Hr Hh. exists (_wer (c :: t) heard). pose proof (wer_silence (c :: t) heard Hr Hh) as E.
    split; [|exact E].
    simpl. rewrite (pron_level_of_resp _ _ E), (wer_silence_score (c :: t) heard Hr Hh). reflexivity.
Qed.

Lemma check_pronunciation_extremes_witness :
  exists w, check_pronunciation (Some phrase_gare) [] = Report Difficile 0 w /\ (w == 1)%Q.
Proof.
  apply (proj2 (@check_pronunciation_extremes latin1_tables phrase_gare [] ltac:(unfold phrase_gare; simpl; discriminate)));
    vm_compute; [discriminate | reflexivity].
Defined.

(** ** Grading the expected answer *)

Lemma zero_ratio_le (m : Z) : (0 < m)%Z -> (inject_Z (Z.of_nat 0) / inject_Z m <= 34 # 100)%Q.
Proof. intros Hm. apply ratio_le_iff; [exact Hm|]. simpl. lia. Qed.

(** answer_quiz accepts the answer it shows as expected: in the "en2fr"
    direction the French word itself, in the other direction the
    translation itself, whatever their accents, case or tokens. *)
Theorem quiz_accepts_expected_answer `{UnicodeTables} (word translation : pystr) :
  quiz_answer_ok true word translation word = true /\
  quiz_answer_ok false word translation translation = true.
Proof.
  split; apply quiz_answer_ok_spec;
    match goal with |- context [lev ?x ?x] => replace (lev x x) with 0%nat by (symmetry; apply lev_zero_iff; reflexivity) end;
    apply zero_ratio_le; lia.
Qed.

(** ** Accent mismatches *)

Lemma in_zip_iff {X Y : Type} (l1 : list X) (l2 : list Y) x y :
  In (x, y) (zip l1 l2) <-> exists k, l1 !! k = Some x /\ l2 !! k = Some y.
Proof.
  revert l2. induction l1 as [|a l1 IH]; intros [|b l2]; simpl.
  - split; [intros []|intros [k [Hk _]]; discriminate].
  - split; [intros []|intros [k [Hk _]]; discriminate].
  - split; [intros []|intros [k [_ Hk]]; destruct k; discriminate].
  - rewrite IH. split.
    + intros [E|[k Hk]]; [injection E as -> ->; exists 0%nat; auto | exists (S k); exact Hk].
    + intros [[|k] [Hx Hy]]; [left; simpl in *; congruence | right; exists k; auto].
Qed.

Lemma length_zip_le {X Y : Type} (l1 : list X) (l2 : list Y) :
  length (zip l1 l2) = Nat.min (length l1) (length l2).
Proof. revert l2. induction l1 as [|a l1 IH]; intros [|b l2]; simpl; auto. Qed.

Lemma zip_diag {X : Type} (l : list X) : zip l l = map (fun x => (x, x)) l.
Proof. induction l as [|a l IH]; simpl; [reflexivity|]. rewrite IH. reflexivity. Qed.

(** _accent_mismatches ref hyp lists exactly the pairs (rt, ht) of tokens
    at the same position k of the token lists of ref and hyp (tokenised
    without stripping accents) that are equal once accents are stripped but
    differ as written. It has at most as many pairs as the shorter token
    list, and none when hyp = ref. *)
Theorem accent_mismatches_spec `{UnicodeTables} (ref hyp rt ht : pystr) :
  (In (rt, ht) (_accent_mismatches ref hyp) <->
   exists k, _tokenize ref !! k = Some rt /\ _tokenize hyp !! k = Some ht /\
             _strip_accents rt = _strip_accents ht /\ rt <> ht) /\
  (length (_accent_mismatches ref hyp) <= Nat.min (length (_tokenize ref)) (length (_tokenize hyp)))%nat /\
  _accent_mismatches ref ref = [].
Proof.
  unfold _accent_mismatches. split; [|split].
  - rewrite List.filter_In, in_zip_iff. simpl. unfold pystr_eqb.
    rewrite andb_true_iff, negb_true_iff, bool_decide_eq_true, bool_decide_eq_false.
    split; [intros [[k [Hr Hh]] [Hs Hn]]; exists k; auto | intros [k [Hr [Hh [Hs Hn]]]]; eauto].
  - rewrite <- length_zip_le. apply List.filter_length_le.
  - rewrite zip_diag. induction (_tokenize ref) as [|t l IH]; simpl; [reflexivity|].
    unfold pystr_eqb. rewrite !bool_decide_eq_true_2 by reflexivity. simpl. exact IH.
Qed.

(** ** The "j’ai" tip *)

Lemma finditer_words acc s : Forall (fun c => word_char c = true) acc ->
  Forall (Forall (fun c => word_char c = true)) (finditer acc s).
Proof.
  revert acc. induction s as [|c s IH]; intros acc Hacc; simpl.
  - destruct acc; constructor; auto.
  - destruct (word_char c) eqn:Ec.
    + apply IH. apply Forall_app. split; [exact Hacc|]. constructor; auto.
    + destruct acc; [apply IH; constructor|]. constructor; [exact Hacc|]. apply IH. constructor.
Qed.

Lemma latin1_lower_word c : word_char c = true -> latin1_lower c <= 255.
Proof.
  unfold word_char, latin1_lower. intros Hc.
  destruct (((65 <=? c) && (c <=? 90)) || ((192 <=? c) && (c <=? 222) && negb (c =? 215))) eqn:E;
    repeat (rewrite ?orb_true_iff, ?andb_true_iff, ?Z.leb_le, ?Z.eqb_eq in Hc, E); lia.
Qed.

Lemma latin1_token_no_jai (m : pystr) : Forall (fun c => word_char c = true) m ->
  map latin1_lower m <> jai.
Proof.
  intros Hm E. assert (Hin : In 8217 (map latin1_lower m)) by (rewrite E; simpl; auto).
  apply in_map_iff in Hin as [c [Hc Hcm]].
  rewrite List.Forall_forall in Hm. pose proof (latin1_lower_word c (Hm c Hcm)). lia.
Qed.

(** The "j’ai" tip of check_pronunciation never fires: the curly
    apostrophe U+2019 is not a character of _WORD_RE, so no token of the
    target is "j’ai" (it splits into "j" and "ai"). Stated for the Latin-1
    lowercasing, which is Python's str.lower on every character _WORD_RE
    matches. *)
Theorem jai_tip_never_fires (target heard : pystr) :
  @jai_tip latin1_tables target heard = false.
Proof.
  unfold jai_tip, _tokenize. simpl.
  pose proof (finditer_words [] target (List.Forall_nil _)) as Hw.
  destruct (finditer [] heard); [reflexivity|].
  destruct (finditer [] target) as [|m ms]; [reflexivity|]. simpl.
  inversion Hw as [|? ? Hm _]; subst.
  unfold pystr_eqb. rewrite (bool_decide_eq_false_2 _ (latin1_token_no_jai m Hm)).
  apply andb_false_r.
Qed.

(** ** The due indices *)

Section DueIndicesMore.

Context `{DatetimeLib}.


Lemma due_check_raise it now e :
  due_check it now = Raise e <-> e = TypeError /\ exists t, fromisoformat (raw_next_due it) = ParsedAware t.
Proof.
  unfold due_check, raw_next_due.
  destruct (fromisoformat _) as [t|t|]; split; try discriminate.
  - intros [_ [t' Ht']]; discriminate.
  - intros [= <-]. eauto.
  - intros [-> _]. reflexivity.
  - intros [_ [t' Ht']]; discriminate.
Qed.

Lemma due_loop_ret_spec now (items : list item) : forall k l,
  due_loop k items now = Ret l ->
  StronglySorted lt l /\ Forall (fun j => (k <= j)%nat) l /\
  (forall j, In j l <-> (k <= j)%nat /\ exists it, items !! (j - k)%nat = Some it /\ due_check it now = Ret true).
Proof.
  induction items as [|it items IH]; intros k l Hl.
  - simpl in Hl. injection Hl as <-. split; [constructor|]. split; [constructor|].
    intros j. split; [intros []|intros [_ [it [Hit _]]]; rewrite lookup_nil in Hit; discriminate].
  - simpl in Hl. destruct (due_check it now) as [b|e] eqn:Eb; [|discriminate].
    destruct (due_loop (S k) items now) as [l'|e] eqn:El; [|discriminate].
    injection Hl as <-. destruct (IH (S k) l' El) as [Hs [Hge Hin]].
    assert (Hin' : forall j, In j l' <-> (k <= j)%nat /\ j <> k /\
              exists it0, (it :: items) !! (j - k)%nat = Some it0 /\ due_check it0 now = Ret true).
    { intros j. rewrite Hin. split.
      - intros [Hj [it0 [Hit0 Hd]]]. split; [lia|]. split; [lia|]. exists it0.
        replace (j - k)%nat with (S (j - S k)) by lia. simpl. auto.
      - intros [Hj [Hne [it0 [Hit0 Hd]]]]. split; [lia|]. exists it0.
        replace (j - k)%nat with (S (j - S k)) in Hit0 by lia. simpl in Hit0. auto. }
    destruct b.
    + split; [|split].
      * constructor; [exact Hs|]. eapply Forall_impl; [exact Hge|]. simpl. lia.
      * constructor; [lia|]. eapply Forall_impl; [exact Hge|]. simpl. lia.
      * intros j. simpl. rewrite Hin'. split.
        -- intros [<-|H1]; [|tauto]. split; [lia|]. exists it. rewrite Nat.sub_diag. auto.
        -- intros [Hj [it0 [Hit0 Hd]]]. destruct (decide (j = k)) as [->|Hne]; [left; reflexivity|].
           right. split; [exact Hj|]. split; [exact Hne|]. eauto.
    + split; [exact Hs|]. split; [eapply Forall_impl; [exact Hge|]; simpl; lia|].
      intros j. rewrite Hin'. split; [tauto|].
      intros [Hj [it0 [Hit0 Hd]]]. split; [exact Hj|]. split; [|eauto].
      intros ->. rewrite Nat.sub_diag in Hit0. simpl in Hit0. injection Hit0 as <-. congruence.
Qed.

Lemma due_loop_raise_spec now (items : list item) : forall k e,
  due_loop k items now = Raise e <->
  e = TypeError /\ exists it t, In it items /\ fromisoformat (raw_next_due it) = ParsedAware t.
Proof.
  induction items as [|it items IH]; intros k e; simpl.
  - split; [discriminate|]. intros [_ [it [t [[] _]]]].
  - destruct (due_check it now) as [b|e0] eqn:Eb.
    + assert (Hna : forall t, fromisoformat (raw_next_due it) <> ParsedAware t).
      { intros t Ht. assert (due_check it now = Raise TypeError) by (apply due_check_raise; eauto).
        congruence. }
      destruct (due_loop (S k) items now) as [l|e1] eqn:El.
      * split; [discriminate|]. intros [-> [it0 [t [[<-|Hin] Ht]]]]; [exfalso; exact (Hna t Ht)|].
        assert (due_loop (S k) items now = Raise TypeError) by (apply IH; eauto). congruence.
      * split.
        -- intros [= <-]. apply IH in El as [-> [it0 [t [Hin Ht]]]]. split; [reflexivity|].
           exists it0, t. auto.
        -- intros [-> [it0 [t [[<-|Hin] Ht]]]]; [exfalso; exact (Hna t Ht)|].
           apply IH in El as [-> _]. reflexivity.
    + apply due_check_raise in Eb as [-> [t Ht]]. split.
      * intros [= <-]. split; [reflexivity|]. exists it, t. auto.
      * intros [-> _]. reflexivity.
Qed.

End DueIndicesMore.

(** _due_indices v now either returns the indices i, in strictly
    increasing order, of exactly those items whose next_due (default
    "1970-01-01T00:00:00", and datetime(1970, 1, 1) when it does not parse)
    is at most now; or it raises, which happens exactly when some item's
    next_due parses as an aware datetime, and then it raises TypeError. *)
Theorem due_indices_spec `{DatetimeLib} (v : list item) (now : Z) :
  (forall l, _due_indices v now = Ret l ->
     StronglySorted lt l /\
     (forall i, In i l <-> exists it, v !! i = Some it /\ due_check it now = Ret true)) /\
  (forall e, _due_indices v now = Raise e <->
     e = TypeError /\ exists it t, In it v /\ fromisoformat (raw_next_due it) = ParsedAware t).
Proof.
  split.
  - intros l Hl. destruct (due_loop_ret_spec now v 0 l Hl) as [Hs [_ Hin]]. split; [exact Hs|].
    intros i. rewrite Hin, Nat.sub_0_r. split; [tauto|]. intros H'. split; [lia|exact H'].
  - intros e. apply due_loop_raise_spec.
Qed.

(** ** The questions of a quiz *)

Lemma map_fst_enumerate_from {X : Type} (l : list X) : forall k,
  map fst (zip (seq k (length l)) l) = seq k (length l).
Proof. induction l as [|x l IH]; intros k; simpl; [reflexivity|]. rewrite IH. reflexivity. Qed.

Lemma fallback_perm (v : list item) :
  Permutation (map fst (sort_by_box (enumerate v))) (seq 0 (length v)).
Proof.
  unfold enumerate. rewrite <- (map_fst_enumerate_from v 0) at 2.
  apply Permutation_map, sort_by_box_perm.
Qed.

Lemma NoDup_take_l {X : Type} (n : nat) (l : list X) : NoDup l -> NoDup (take n l).
Proof. intros Hl. rewrite <- (take_drop n l) in Hl. apply NoDup_app in Hl. tauto. Qed.

Lemma StronglySorted_lt_NoDup (l : list nat) : StronglySorted lt l -> NoDup l.
Proof.
  induction 1 as [|x l Hs IH Hf]; constructor; [|exact IH].
  intros Hx. apply list_elem_of_In in Hx. rewrite List.Forall_forall in Hf.
  specialize (Hf x Hx). lia.
Qed.

(** start_quiz on a non-empty vocabulary, when no item raises in
    _due_indices: the questions it queues (the current one first) are
    distinct indices drawn from the pool, which is the list of due items,
    or, when nothing is due, every item; there are max(1, min(count, pool
    size)) of them, so even count <= 0 asks one question. *)
Theorem start_quiz_questions `{UnicodeTables} `{DatetimeLib}
    (s : tutor) (count : Z) (d : pystr) (now : Z) (shuffle : list nat -> list nat)
    (due0 : list nat) (r : outcome reply) (s' : tutor) :
  (forall l, Permutation (shuffle l) l) -> vocab s <> [] ->
  _due_indices (vocab s) now = Ret due0 ->
  start_quiz s count d now shuffle = (r, s') ->
  let pool := match due0 with [] => seq 0 (length (vocab s)) | _ => due0 end in
  exists i, quiz_current s' = Some i /\
    NoDup (i :: quiz_queue s') /\
    length (i :: quiz_queue s') = Z.to_nat (Z.max 1 (Z.min count (Z.of_nat (length pool)))) /\
    (forall j, In j (i :: quiz_queue s') -> In j pool).
Proof.
  intros Hsh Hv Hd Hst pool. unfold start_quiz in Hst.
  assert (Hm : exists it0 v0, vocab s = it0 :: v0) by (destruct (vocab s); [congruence|eauto]).
  destruct Hm as [it0 [v0 Ev]]. rewrite Ev in Hst at 1. cbv beta iota in Hst.
  change (vocab (set_direction ?x s)) with (vocab s) in Hst.
  rewrite Hd in Hst.
  set (due := match due0 with [] => map fst (sort_by_box (enumerate (vocab s))) | _ => due0 end) in Hst.
  assert (Hpool : Permutation due pool /\ NoDup pool).
  { unfold due, pool. destruct due0 as [|j0 l0].
    - split; [apply fallback_perm | apply NoDup_seq].
    - split; [reflexivity|]. apply StronglySorted_lt_NoDup.
      exact (proj1 (proj1 (due_indices_spec (vocab s) now) _ Hd)). }
  destruct Hpool as [Hperm Hnd].
  assert (Hlen : length pool <> 0%nat).
  { unfold pool. destruct due0; [rewrite length_seq, Ev|]; simpl; lia. }
  set (n := Z.to_nat (Z.max 1 (Z.min count (Z.of_nat (length (shuffle due)))))) in Hst.
  assert (Hsl : length (shuffle due) = length pool).
  { rewrite (Permutation_length (Hsh due)). apply Permutation_length. exact Hperm. }
  assert (Hn : (1 <= n <= length (shuffle due))%nat) by (unfold n; lia).
  destruct (take n (shuffle due)) as [|i q] eqn:Eq.
  { apply (f_equal length) in Eq. rewrite length_take in Eq. simpl in Eq. lia. }
  unfold next_question in Hst. simpl in Hst.
  assert (Es' : s' = set_quiz q (Some i) (set_quiz (i :: q) None
                  (set_direction (match d with [] => en2fr | _ => py_strip (str_lower d) end) s))).
  { destruct (vocab s !! i); [destruct (pystr_eqb _ _)|]; injection Hst as _ <-; reflexivity. }
  subst s'. exists i. simpl. split; [reflexivity|]. split; [|split].
  - rewrite <- Eq. apply NoDup_take_l. rewrite (Hsh due), Hperm. exact Hnd.
  - transitivity (length (i :: q)); [reflexivity|].
    rewrite <- Eq, length_take. unfold n. rewrite Hsl. lia.
  - intros j Hj. change (In j (i :: q)) in Hj. rewrite <- Eq in Hj. apply list_elem_of_In in Hj.
    apply elem_of_take in Hj as [p [Hp _]]. apply list_elem_of_lookup_2 in Hp.
    apply list_elem_of_In. rewrite <- Hperm, <- (Hsh due). exact Hp.
Qed.

Lemma start_quiz_questions_witness :
  exists i, quiz_current quiz_demo = Some i /\
    NoDup (i :: quiz_queue quiz_demo) /\
    length (i :: quiz_queue quiz_demo) = Z.to_nat (Z.max 1 (Z.min 1 (Z.of_nat (length [0%nat])))) /\
    (forall j, In j (i :: quiz_queue quiz_demo) -> In j [0%nat]).
Proof.
  apply (start_quiz_questions quiz_demo_added 1 (py "en2fr") quiz_demo_now (fun l => l) [0%nat]
           (fst (start_quiz quiz_demo_added 1 (py "en2fr") quiz_demo_now (fun l => l))) quiz_demo).
  - intros l. reflexivity.
  - vm_compute. discriminate.
  - vm_compute. reflexivity.
  - apply surjective_pairing.
Defined.

(** ** The order of due_words *)

Lemma str_ltb_irrefl (a : pystr) : str_ltb a a = false.
Proof. induction a as [|x a IH]; simpl; [reflexivity|]. rewrite Z.ltb_irrefl, Z.eqb_refl. exact IH. Qed.

Lemma str_ltb_trans (a b c : pystr) : str_ltb a b = true -> str_ltb b c = true -> str_ltb a c = true.
Proof.
  revert b c. induction a as [|x a IH]; intros [|y b] [|z c]; simpl; try congruence.
  rewrite !orb_true_iff, !andb_true_iff, !Z.ltb_lt, !Z.eqb_eq.
  intros [H1|[H1 H1']] [H2|[H2 H2']]; subst; try (left; lia). right. split; [reflexivity|]. eauto.
Qed.

Lemma str_ltb_total (a b : pystr) : a <> b -> str_ltb a b = true \/ str_ltb b a = true.
Proof.
  revert b. induction a as [|x a IH]; intros [|y b] Hne; simpl; try tauto; try congruence.
  rewrite !orb_true_iff, !andb_true_iff, !Z.ltb_lt, !Z.eqb_eq.
  destruct (Z.lt_trichotomy x y) as [Hl|[->|Hl]]; [tauto| |tauto].
  destruct (IH b) as [H1|H1]; [congruence | tauto | tauto].
Qed.

Lemma key_ltb_trans k1 k2 k3 : key_ltb k1 k2 = true -> key_ltb k2 k3 = true -> key_ltb k1 k3 = true.
Proof.
  unfold key_ltb. rewrite !orb_true_iff, !andb_true_iff, !Z.ltb_lt, !Z.eqb_eq.
  intros [H1|[H1 H1']] [H2|[H2 H2']]; try (left; lia). right. split; [lia|]. eapply str_ltb_trans; eauto.
Qed.

Lemma key_ltb_irrefl k : key_ltb k k = false.
Proof. unfold key_ltb. rewrite Z.ltb_irrefl, Z.eqb_refl, str_ltb_irrefl. reflexivity. Qed.

Lemma key_ltb_total k1 k2 : k1 <> k2 -> key_ltb k1 k2 = true \/ key_ltb k2 k1 = true.
Proof.
  destruct k1 as [b1 d1], k2 as [b2 d2]. unfold key_ltb. simpl. intros Hne.
  rewrite !orb_true_iff, !andb_true_iff, !Z.ltb_lt, !Z.eqb_eq.
  destruct (Z.lt_trichotomy b1 b2) as [Hl|[->|Hl]]; [tauto| |tauto].
  destruct (str_ltb_total d1 d2) as [H1|H1]; [congruence|tauto|tauto].
Qed.

Section KeySort.

Context {X : Type} (key : X -> Z * pystr).


Lemma key_le_trans x y z : (key_le_rel key) x y -> (key_le_rel key) y z -> (key_le_rel key) x z.
Proof.
  unfold key_le_rel. intros H1 H2. destruct (key_ltb (key z) (key x)) eqn:E; [|reflexivity].
  exfalso. destruct (decide (key y = key x)) as [Ey|Ey].
  - rewrite Ey in H2. congruence.
  - destruct (key_ltb_total (key y) (key x) Ey) as [H|H]; [congruence|].
    pose proof (key_ltb_trans _ _ _ E H). congruence.
Qed.

Lemma insert_by_key_perm x l : Permutation (insert_by_key key x l) (x :: l).
Proof.
  induction l as [|y l IH]; simpl; [reflexivity|].
  destruct (key_ltb (key y) (key x)); [|reflexivity].
  rewrite IH. apply perm_swap.
Qed.

Lemma sort_by_key_perm l : Permutation (sort_by_key key l) l.
Proof. induction l as [|x l IH]; simpl; [reflexivity|]. rewrite insert_by_key_perm, IH. reflexivity. Qed.

Lemma insert_by_key_sorted x l : StronglySorted (key_le_rel key) l -> StronglySorted (key_le_rel key) (insert_by_key key x l).
Proof.
  induction l as [|y l IH]; intros Hs; simpl.
  - repeat constructor.
  - inversion Hs as [|? ? Hs' Hf]; subst.
    destruct (key_ltb (key y) (key x)) eqn:E.
    + constructor; [apply IH; exact Hs'|].
      apply List.Forall_forall. intros z Hz.
      apply (Permutation_in _ (insert_by_key_perm x l)) in Hz as [<-|Hz].
      * unfold key_le_rel. destruct (key_ltb (key x) (key y)) eqn:E'; [|reflexivity].
        pose proof (key_ltb_trans _ _ _ E E'). rewrite key_ltb_irrefl in *. congruence.
      * rewrite List.Forall_forall in Hf. apply Hf. exact Hz.
    + constructor; [exact Hs|]. constructor; [exact E|].
      eapply Forall_impl; [exact Hf|]. intros z Hz. eapply key_le_trans; [exact E|exact Hz].
Qed.

Lemma sort_by_key_sorted l : StronglySorted (key_le_rel key) (sort_by_key key l).
Proof. induction l as [|x l IH]; simpl; [constructor|]. apply insert_by_key_sorted, IH. Qed.

(** Stability: with the input ordered by [P], elements of equal key stay in
    [P] order. *)
Lemma insert_by_key_stable (P : X -> X -> Prop) x l :
  StronglySorted (fun y z => key_le_rel key y z /\ (key y = key z -> P y z)) l ->
  Forall (P x) l ->
  StronglySorted (fun y z => key_le_rel key y z /\ (key y = key z -> P y z)) (insert_by_key key x l).
Proof.
  induction l as [|y l IH]; intros Hs Hp; simpl.
  - repeat constructor.
  - inversion Hs as [|? ? Hs' Hf]; subst. inversion Hp as [|? ? Hxy Hp']; subst.
    destruct (key_ltb (key y) (key x)) eqn:E.
    + constructor; [apply IH; assumption|].
      apply List.Forall_forall. intros z Hz.
      apply (Permutation_in _ (insert_by_key_perm x l)) in Hz as [<-|Hz].
      * split.
        -- unfold key_le_rel. destruct (key_ltb (key x) (key y)) eqn:E'; [|reflexivity].
           pose proof (key_ltb_trans _ _ _ E E'). rewrite key_ltb_irrefl in *. congruence.
        -- intros Heq. rewrite Heq, key_ltb_irrefl in E. discriminate.
      * rewrite List.Forall_forall in Hf. apply Hf. exact Hz.
    + constructor; [exact Hs|]. constructor; [split; [exact E | intros _; exact Hxy]|].
      apply List.Forall_forall. intros z Hz. rewrite List.Forall_forall in Hf, Hp'. split.
      * eapply key_le_trans; [exact E | apply (proj1 (Hf z Hz))].
      * intros _. apply Hp'. exact Hz.
Qed.

Lemma sort_by_key_stable (P : X -> X -> Prop) l :
  StronglySorted P l ->
  StronglySorted (fun y z => key_le_rel key y z /\ (key y = key z -> P y z)) (sort_by_key key l).
Proof.
  induction l as [|x l IH]; intros Hs; simpl; [constructor|].
  inversion Hs as [|? ? Hs' Hf]; subst. apply insert_by_key_stable; [apply IH; exact Hs'|].
  apply List.Forall_forall. intros z Hz. apply (Permutation_in _ (sort_by_key_perm l)) in Hz.
  rewrite List.Forall_forall in Hf. apply Hf. exact Hz.
Qed.

End KeySort.

Lemma StronglySorted_app_l {X : Type} (R : X -> X -> Prop) (l1 l2 : list X) :
  StronglySorted R (l1 ++ l2) -> StronglySorted R l1.
Proof.
  induction l1 as [|x l1 IH]; simpl; intros Hs; [constructor|].
  inversion Hs as [|? ? Hs' Hf]; subst. constructor; [apply IH; exact Hs'|].
  rewrite List.Forall_forall in Hf |- *. intros y Hy. apply Hf. apply in_or_app. auto.
Qed.

Lemma StronglySorted_weaken {X : Type} (R R' : X -> X -> Prop) (l : list X) :
  (forall x y, R x y -> R' x y) -> StronglySorted R l -> StronglySorted R' l.
Proof.
  intros HR. induction l as [|x l IH]; intros Hs; [constructor|].
  inversion Hs as [|? ? Hs' Hf]; subst. constructor; [apply IH; exact Hs'|].
  eapply Forall_impl; [exact Hf|]. intros y. apply HR.
Qed.

Lemma StronglySorted_app_between {X : Type} (R : X -> X -> Prop) (l1 l2 : list X) x y :
  StronglySorted R (l1 ++ l2) -> In x l1 -> In y l2 -> R x y.
Proof.
  induction l1 as [|z l1 IH]; simpl; intros Hs Hx Hy; [contradiction|].
  inversion Hs as [|? ? Hs' Hf]; subst. destruct Hx as [<-|Hx].
  - rewrite List.Forall_forall in Hf. apply Hf. apply in_or_app. auto.
  - apply IH; assumption.
Qed.

(** due_words lists the due items (those _due_indices returns) by
    increasing (box, next_due), ties kept in index order: with nothing due
    it gives the "Aucune révision" reply; otherwise it lists
    min(max(1, top_k), number due) distinct due items, sorted by that key,
    two listed items of equal key appearing in increasing index order; every
    due item it leaves out has a key no smaller than any item listed, and
    one whose key equals that of a listed item has a larger index. *)
Theorem due_words_top_k `{DatetimeLib} (s : tutor) (top_k now : Z) (due : list nat) :
  _due_indices (vocab s) now = Ret due ->
  (due = [] -> due_words s top_k now = Ret None) /\
  (due <> [] -> exists l, due_words s top_k now = Ret (Some l) /\
     length l = Nat.min (Z.to_nat (Z.max 1 top_k)) (length due) /\
     NoDup l /\ (forall i, In i l -> In i due) /\
     StronglySorted (key_le_rel (index_key (vocab s))) l /\
     StronglySorted (fun i j => index_key (vocab s) i = index_key (vocab s) j -> (i < j)%nat) l /\
     (forall i j, In i l -> In j due -> ~ In j l ->
        key_ltb (index_key (vocab s) j) (index_key (vocab s) i) = false /\
        (index_key (vocab s) i = index_key (vocab s) j -> (i < j)%nat))).
Proof.
  intros Hd. unfold due_words. rewrite Hd. split; [intros ->; reflexivity|].
  intros Hne. destruct due as [|i0 due']; [congruence|].
  set (due := i0 :: due'). set (key := index_key (vocab s)).
  set (sorted := sort_by_key key due). set (n := Z.to_nat (Z.max 1 top_k)).
  exists (take n sorted). split; [reflexivity|].
  assert (Hperm : Permutation sorted due) by apply sort_by_key_perm.
  assert (Hnd : NoDup due).
  { apply StronglySorted_lt_NoDup. exact (proj1 (proj1 (due_indices_spec (vocab s) now) _ Hd)). }
  assert (Hlt : StronglySorted lt due) by exact (proj1 (proj1 (due_indices_spec (vocab s) now) _ Hd)).
  assert (Hss : StronglySorted (fun i j => key_le_rel key i j /\ (key i = key j -> (i < j)%nat)) sorted)
    by (apply sort_by_key_stable; exact Hlt).
  assert (Hsplit : sorted = take n sorted ++ drop n sorted) by (symmetry; apply take_drop).
  split; [|split; [|split; [|split; [|split]]]].
  - rewrite length_take, (Permutation_length Hperm). reflexivity.
  - apply NoDup_take_l. rewrite Hperm. exact Hnd.
  - intros i Hi. apply (Permutation_in _ Hperm). rewrite Hsplit. apply in_or_app. auto.
  - rewrite Hsplit in Hss. eapply StronglySorted_weaken; [|exact (StronglySorted_app_l _ _ _ Hss)].
    intros i j Hij. exact (proj1 Hij).
  - rewrite Hsplit in Hss. eapply StronglySorted_weaken; [|exact (StronglySorted_app_l _ _ _ Hss)].
    intros i j Hij. exact (proj2 Hij).
  - intros i j Hi Hj Hnj.
    assert (Hj' : In j (drop n sorted)).
    { apply (Permutation_in _ (Permutation_sym Hperm)) in Hj. rewrite Hsplit in Hj.
      apply in_app_or in Hj as [Hj|Hj]; [contradiction|exact Hj]. }
    rewrite Hsplit in Hss. exact (StronglySorted_app_between _ _ _ i j Hss Hi Hj').
Qed.

Lemma due_words_top_k_witness :
  exists l, due_words quiz_demo 5 quiz_demo_now = Ret (Some l) /\
     length l = Nat.min (Z.to_nat (Z.max 1 5)) (length [0%nat]).
Proof.
  destruct (proj2 (@due_words_top_k iso_lib quiz_demo 5 quiz_demo_now [0%nat] ltac:(vm_compute; reflexivity))
              ltac:(discriminate)) as [l [H1 [H2 _]]].
  exists l. split; assumption.
Defined.

(** ** Every item keeps a due date; the quiz tools never index out of range *)

Section DueDatesKept.

Context `{UnicodeTables} `{DatetimeLib}.


Lemma answer_quiz_has_due s ans now r s' :
  Forall has_due (vocab s) -> answer_quiz s ans now = (r, s') -> Forall has_due (vocab s').
Proof.
  intros Hd. unfold answer_quiz.
  destruct (quiz_current s) as [i|]; [|intros [= _ <-]; exact Hd].
  destruct (vocab s !! i) as [it|] eqn:Ei; [|intros [= _ <-]; exact Hd].
  pose proof (Forall_lookup_1 _ _ _ _ Hd Ei) as Hit.
  destruct (_next_due _ now) as [d|].
  - destruct (next_question _) as [[nxt|e] s2] eqn:En; intros [= _ <-];
      apply next_question_vocab in En; rewrite En; simpl;
      (apply Forall_insert; [exact Hd | unfold has_due; simpl; eauto]).
  - intros [= _ <-]. simpl. apply Forall_insert; [exact Hd|]. exact Hit.
Qed.

Lemma step_has_due s s' : Forall has_due (vocab s) -> step s s' -> Forall has_due (vocab s').
Proof.
  intros Hd Hst. destruct Hst as [s w t e now r s' _ Hadd | s count d now shuffle r s' _ _ Hst
                | s r s' Hn | s ans now r s' _ Ha | s lv md tp pt].
  - unfold add_vocab in Hadd. destruct (_next_due 1 now) as [d|].
    + injection Hadd as _ <-. simpl. apply Forall_app. split; [exact Hd|].
      constructor; [unfold has_due; simpl; eauto | constructor].
    + injection Hadd as _ <-. exact Hd.
  - apply start_quiz_vocab in Hst. rewrite Hst. exact Hd.
  - apply next_question_vocab in Hn. rewrite Hn. exact Hd.
  - eapply answer_quiz_has_due; eauto.
  - exact Hd.
Qed.

Lemma reachable_has_due s : reachable s -> Forall has_due (vocab s).
Proof.
  induction 1 as [| s _ IH | s s' _ IH Hst]; [constructor | exact IH |].
  eapply step_has_due; eauto.
Qed.

Lemma list_rows_some i v : Forall has_due v -> is_Some (list_rows i v).
Proof.
  revert i. induction v as [|it v IH]; intros i Hv; simpl; [eauto|].
  inversion Hv as [|? ? [d Hd] Hv']; subst. rewrite Hd.
  destruct (IH (S i) Hv') as [rows ->]. eauto.
Qed.

Lemma answer_quiz_raise s ans now e s' :
  tutor_inv s -> dt_in_range now = true -> answer_quiz s ans now = (Raise e, s') ->
  e = OverflowError /\ datetime_max < now + 15 * day_us.
Proof.
  intros Hinv Hn. pose proof Hinv as [Hb [Hq Hc]]. unfold answer_quiz.
  destruct (quiz_current s) as [i|] eqn:Ec; [|discriminate].
  destruct (vocab s !! i) as [it|] eqn:Ei.
  2:{ exfalso. apply lookup_ge_None in Ei. specialize (Hc i eq_refl). lia. }
  pose proof (Forall_lookup_1 _ _ _ _ Hb Ei) as Hit. unfold item_box_ok in Hit.
  set (ok := quiz_answer_ok _ _ _ _).
  set (b := if ok then Z.min 5 (box it + 1) else 1).
  assert (Hbr : 1 <= b <= 5) by (unfold b; destruct ok; lia).
  destruct (_next_due b now) as [d|] eqn:Ed.
  - set (s1 := set_vocab _ s).
    assert (Hinv1 : tutor_inv s1).
    { split; [|split].
      - apply Forall_insert; [exact Hb|]. unfold item_box_ok. simpl. exact Hbr.
      - simpl. rewrite length_insert. exact Hq.
      - intros j Hj. simpl in Hj |- *. rewrite length_insert. apply (proj2 (proj2 Hinv)). exact Hj. }
    destruct (next_question_ret s1 Hinv1) as [nxt [s2 En]]. rewrite En. discriminate.
  - intros [= <- _]. split; [reflexivity|].
    destruct (Z.lt_ge_cases datetime_max (now + 15 * day_us)) as [Hlt|Hge]; [exact Hlt|].
    exfalso. assert (Hr : dt_in_range (now + 15 * day_us) = true).
    { unfold dt_in_range in *. apply andb_true_iff in Hn as [Hn1 Hn2].
      apply andb_true_iff. split; apply Z.leb_le; [|exact Hge]. rewrite Z.leb_le in Hn1. unfold day_us, us_per_second. lia. }
    destruct (next_due_in_range b now Hn Hr) as [d' Hd']. congruence.
Qed.

End DueDatesKept.

Lemma quiz_demo_reachable : reachable quiz_demo.
Proof.
  eapply reach_step; [eapply reach_step; [apply reach_fresh|]|].
  - eapply (step_add fresh_tutor (py "chat") (py "cat") None sample_now);
      [vm_compute; reflexivity | apply surjective_pairing].
  - eapply (step_start quiz_demo_added 1 (py "en2fr") quiz_demo_now (fun l => l));
      [vm_compute; reflexivity | intros l; reflexivity | apply surjective_pairing].
Qed.

(** In every state the tutor reaches (fresh or reloaded, then tool calls),
    every vocabulary item has a next_due, so list_vocab never raises
    KeyError; next_question never raises (every queued index is a valid
    index); and answer_quiz, at a clock reading that is a datetime, raises
    only OverflowError, and only when that reading is less than 15 days
    before datetime.max. *)
Theorem reachable_tools_never_fail `{UnicodeTables} `{DatetimeLib} (s : tutor) :
  reachable s ->
  Forall (fun it => is_Some (next_due it)) (vocab s) /\
  list_vocab s <> None /\
  (exists r s', next_question s = (Ret r, s')) /\
  (forall ans now e s', dt_in_range now = true -> answer_quiz s ans now = (Raise e, s') ->
     e = OverflowError /\ datetime_max < now + 15 * day_us).
Proof.
  intros Hr. pose proof (reachable_inv s Hr) as Hinv. pose proof (reachable_has_due s Hr) as Hd.
  split; [exact Hd|]. split; [|split].
  - unfold list_vocab. destruct (vocab s) as [|it v]; [discriminate|].
    destruct (list_rows_some 1 (it :: v) Hd) as [rows ->]. discriminate.
  - apply next_question_ret. exact Hinv.
  - intros ans now e s' Hn Ha. eapply answer_quiz_raise; eauto.
Qed.

Lemma reachable_tools_never_fail_witness :
  Forall (fun it => is_Some (next_due it)) (vocab quiz_demo) /\ list_vocab quiz_demo <> None.
Proof.
  destruct (@reachable_tools_never_fail latin1_tables iso_lib quiz_demo quiz_demo_reachable)
    as [H1 [H2 _]].
  split; assumption.
Defined.

(** ** The settings the tools keep *)


Lemma settings_inv_same s s' : settings_inv s -> same_settings s s' -> settings_inv s'.
Proof. intros Hs [E1 [E2 [E3 E4]]]. unfold settings_inv in *. rewrite E1, E2, E3, E4. exact Hs. Qed.

Section SettingsProofs.

Context `{UnicodeTables} `{DatetimeLib} `{UpperTable}.

Lemma next_question_same s r s' : next_question s = (r, s') -> same_settings s s'.
Proof.
  unfold next_question. destruct (quiz_queue s) as [|i q].
  - intros [= _ <-]. repeat split.
  - destruct (vocab s !! i); [destruct (pystr_eqb _ _)|]; intros [= _ <-]; repeat split.
Qed.

Lemma answer_quiz_same s ans now r s' : answer_quiz s ans now = (r, s') -> same_settings s s'.
Proof.
  unfold answer_quiz.
  destruct (quiz_current s) as [i|]; [|intros [= _ <-]; repeat split].
  destruct (vocab s !! i) as [it|]; [|intros [= _ <-]; repeat split].
  destruct (_next_due _ now) as [d|].
  - destruct (next_question _) as [[nxt|e] s2] eqn:En; intros [= _ <-];
      apply next_question_same in En; exact En.
  - intros [= _ <-]. repeat split.
Qed.

Lemma start_quiz_same s count d now shuffle r s' :
  start_quiz s count d now shuffle = (r, s') -> same_settings s s'.
Proof.
  unfold start_quiz. destruct (vocab s); [intros [= _ <-]; repeat split|].
  destruct (_due_indices _ now).
  - intros En. apply next_question_same in En. exact En.
  - intros [= _ <-]. repeat split.
Qed.

Lemma add_vocab_same s w t e now r s' : add_vocab s w t e now = (r, s') -> same_settings s s'.
Proof. unfold add_vocab. destruct (_next_due 1 now); intros [= _ <-]; repeat split. Qed.

Lemma random_choice_in {X : Type} k (l : list X) x : random_choice k l = Some x -> In x l.
Proof. unfold random_choice. intros Hx. apply list_elem_of_In. eapply list_elem_of_lookup_2. exact Hx. Qed.

Lemma set_mode_settings s md tp : settings_inv s -> settings_inv (snd (set_mode s md tp)).
Proof.
  intros Hs. unfold set_mode.
  destruct (str_in (py_strip (str_lower md)) MODES) eqn:E; [|exact Hs].
  cbv beta iota zeta delta [negb snd].
  destruct Hs as [Hs1 [Hs2 [Hs3 Hs4]]].
  destruct tp as [[|c t]|]; [repeat split; assumption| |repeat split; assumption].
  destruct (pystr_eqb (py_strip (str_lower md)) (py "roleplay")); [|repeat split; assumption].
  destruct (str_in (py_strip (str_lower (c :: t))) ROLEPLAY_TOPICS) eqn:E2; repeat split; assumption.
Qed.

Lemma tool_step_settings s s' : settings_inv s -> tool_step s s' -> settings_inv s'.
Proof.
  intros Hs Hst. destruct Hst as [s w t e now r s' _ Hadd | s count d now shuffle r s' _ _ Hst
    | s r s' Hn | s ans now r s' _ Ha | s lv r s' Hl | s md tp r s' Hm | s tp k1 k2 r s' Hg | s].
  - eapply settings_inv_same; [exact Hs|]. eapply add_vocab_same; eauto.
  - eapply settings_inv_same; [exact Hs|]. eapply start_quiz_same; eauto.
  - eapply settings_inv_same; [exact Hs|]. eapply next_question_same; eauto.
  - eapply settings_inv_same; [exact Hs|]. eapply answer_quiz_same; eauto.
  - unfold set_level in Hl. destruct (str_in (py_strip (str_upper lv)) LEVELS) eqn:E.
    + injection Hl as _ <-. destruct Hs as [Hs1 [Hs2 [Hs3 Hs4]]]. repeat split; assumption.
    + injection Hl as _ <-. exact Hs.
  - replace s' with (snd (set_mode s md tp)) by (rewrite Hm; reflexivity).
    apply set_mode_settings. exact Hs.
  - unfold give_sentence in Hg.
    destruct (if str_in _ ROLEPLAY_TOPICS then _ else _) as [tp'|]; [|injection Hg as _ <-; exact Hs].
    destruct (str_assoc PHRASES tp') as [ps|] eqn:Eps; [|injection Hg as _ <-; exact Hs].
    destruct (random_choice k2 ps) as [[fr en]|] eqn:Ec; [|injection Hg as _ <-; exact Hs].
    injection Hg as _ <-. destruct Hs as [Hs1 [Hs2 [Hs3 Hs4]]]. repeat split; try assumption.
    right. exists tp', ps, fr, en. split; [exact Eps|]. split; [|reflexivity].
    eapply random_choice_in. exact Ec.
  - exact Hs.
Qed.

Lemma settings_change_step s s' :
  vocab s' = vocab s /\ quiz_queue s' = quiz_queue s /\ quiz_current s' = quiz_current s /\
  quiz_direction s' = quiz_direction s -> step s s'.
Proof.
  destruct s, s'. simpl. intros [-> [-> [-> ->]]]. apply step_settings.
Qed.

Lemma tool_step_step s s' : tool_step s s' -> step s s'.
Proof.
  destruct 1 as [s w t e now r s' Hn Hadd | s count d now shuffle r s' Hn Hp Hst
    | s r s' Hn | s ans now r s' Hn Ha | s lv r s' Hl | s md tp r s' Hm | s tp k1 k2 r s' Hg | s].
  - eapply step_add; eauto.
  - eapply step_start; eauto.
  - eapply step_next; eauto.
  - eapply step_answer; eauto.
  - apply settings_change_step. replace s' with (snd (set_level s lv)) by (rewrite Hl; reflexivity).
    unfold set_level. destruct (negb _); repeat split.
  - apply settings_change_step. replace s' with (snd (set_mode s md tp)) by (rewrite Hm; reflexivity).
    unfold set_mode. destruct (negb _); [repeat split|].
    cbv beta iota zeta delta [negb snd]. destruct tp as [[|c t]|]; [repeat split| |repeat split].
    destruct (pystr_eqb _ _); [|repeat split]. destruct (str_in _ _); repeat split.
  - apply settings_change_step. replace s' with (snd (give_sentence s tp k1 k2)) by (rewrite Hg; reflexivity).
    unfold give_sentence. destruct (if str_in _ ROLEPLAY_TOPICS then _ else _) as [tp'|]; [|repeat split].
    destruct (str_assoc PHRASES tp') as [ps|]; [|repeat split].
    destruct (random_choice k2 ps) as [[fr en]|]; repeat split.
  - apply settings_change_step. repeat split.
Qed.

Lemma tool_reachable_reachable s : tool_reachable s -> reachable s.
Proof.
  induction 1; [constructor | constructor; assumption |].
  eapply reach_step; [eassumption|]. apply tool_step_step. assumption.
Qed.

End SettingsProofs.

Lemma phrases_nonempty tp ps fr en : str_assoc PHRASES tp = Some ps -> In (fr, en) ps -> fr <> [].
Proof.
  unfold PHRASES. simpl.
  destruct (pystr_eqb _ tp); [intros [= <-] Hin Hf; subst fr; vm_compute in Hin;
    repeat (destruct Hin as [Hin|Hin]; [injection Hin; intros; discriminate|]); contradiction|].
  destruct (pystr_eqb _ tp); [intros [= <-] Hin Hf; subst fr; vm_compute in Hin;
    repeat (destruct Hin as [Hin|Hin]; [injection Hin; intros; discriminate|]); contradiction|].
  destruct (pystr_eqb _ tp); [intros [= <-] Hin Hf; subst fr; vm_compute in Hin;
    repeat (destruct Hin as [Hin|Hin]; [injection Hin; intros; discriminate|]); contradiction|].
  discriminate.
Qed.

(** Whatever tools are called (the quiz tools, set_level, set_mode,
    give_sentence and the read-only ones), on a fresh or reloaded tutor:
    the state is one the quiz tools reach; the level is always one of
    LEVELS, the mode one of MODES, the topic one of ROLEPLAY_TOPICS (an
    unknown level or mode is refused and an unknown topic ignored); the
    pronunciation target is unset or a French sentence of PHRASES, and
    never the empty string, so once give_sentence has run,
    check_pronunciation always grades. *)
Theorem tools_keep_settings `{UnicodeTables} `{DatetimeLib} `{UpperTable} (s : tutor) :
  tool_reachable s ->
  reachable s /\ settings_inv s /\ pron_target s <> Some [] /\
  (forall heard, pron_target s <> None -> check_pronunciation (pron_target s) heard <> NoTarget).
Proof.
  intros Hr. split; [apply tool_reachable_reachable; exact Hr|].
  assert (Hs : settings_inv s).
  { induction Hr as [| s _ IH | s s' _ IH Hst].
    - vm_compute. repeat split; auto.
    - destruct IH as [Hs1 [Hs2 [Hs3 _]]]. repeat split; auto.
    - eapply tool_step_settings; eauto. }
  assert (Hne : pron_target s <> Some []).
  { destruct Hs as [_ [_ [_ [Hp|[tp [ps [fr [en [Eps [Hin Hp]]]]]]]]]]; rewrite Hp; [discriminate|].
    intros [= Hf]. exact (phrases_nonempty tp ps fr en Eps Hin Hf). }
  split; [exact Hs|]. split; [exact Hne|].
  intros heard Hp. destruct (pron_target s) as [[|c t]|] eqn:Ep.
  - exfalso. apply Hne. reflexivity.
  - simpl. discriminate.
  - exfalso. apply Hp. reflexivity.
Qed.

Lemma tools_keep_settings_witness :
  tool_reachable settings_demo /\
  check_pronunciation (pron_target settings_demo) (py "ou est la gare") <> NoTarget.
Proof.
  assert (Hr : tool_reachable settings_demo).
  { eapply treach_step; [eapply treach_step; [apply treach_fresh|]|].
    - eapply (@ts_set_level latin1_tables iso_lib latin1_upper_table fresh_tutor (py " b2 "));
        apply surjective_pairing.
    - eapply (@ts_give_sentence latin1_tables iso_lib latin1_upper_table _ (Some (py "Travel")) 0 1);
        apply surjective_pairing. }
  split; [exact Hr|].
  apply (@tools_keep_settings latin1_tables iso_lib latin1_upper_table _ Hr).
  vm_compute. discriminate.
Defined.

Section QuizSession.

Context `{UnicodeTables} `{DatetimeLib}.

Lemma answer_quiz_next s a now i :
  tutor_inv s -> quiz_current s = Some i ->
  dt_in_range now = true -> dt_in_range (now + 15 * day_us) = true ->
  exists ok g nxt s', answer_quiz s a now = (Ret (Verdict ok g nxt), s') /\ tutor_inv s' /\
    length (vocab s') = length (vocab s) /\
    match quiz_queue s with
    | [] => nxt = QuizFinished /\ quiz_current s' = None /\ quiz_queue s' = []
    | j :: q => (exists t, nxt = PromptFr t \/ nxt = PromptEn t) /\
                quiz_current s' = Some j /\ quiz_queue s' = q
    end.
Proof.
  intros Hinv Hc Hn Hr. pose proof Hinv as [Hb [Hq Hcv]]. unfold answer_quiz. rewrite Hc.
  destruct (vocab s !! i) as [it|] eqn:Ei.
  2:{ exfalso. apply lookup_ge_None in Ei. specialize (Hcv i Hc). lia. }
  pose proof (Forall_lookup_1 _ _ _ _ Hb Ei) as Hit. unfold item_box_ok in Hit.
  set (ok := quiz_answer_ok _ _ _ _).
  set (b := if ok then Z.min 5 (box it + 1) else 1).
  assert (Hbr : 1 <= b <= 5) by (unfold b; destruct ok; lia).
  destruct (next_due_in_range b now Hn Hr) as [d Hd]. rewrite Hd.
  set (it1 := set_next_due _ _).
  assert (Hinv1 : tutor_inv (set_vocab (<[i := it1]> (vocab s)) s)).
  { split; [|split].
    - apply Forall_insert; [exact Hb|]. unfold item_box_ok. simpl. exact Hbr.
    - simpl. rewrite length_insert. exact Hq.
    - intros j Hj. simpl in Hj |- *. rewrite length_insert. apply Hcv. exact Hj. }
  pose proof (next_question_inv _ _ _ Hinv1 (surjective_pairing _)) as Hinv2.
  revert Hinv2. unfold next_question. cbn [quiz_queue set_vocab].
  pose proof Hq as Hq'. destruct (quiz_queue s) as [|j q] eqn:Eq.
  - intros Hinv2. do 4 eexists. split; [reflexivity|].
    split; [exact Hinv2|]. split; [cbn [vocab set_quiz set_vocab]; apply length_insert|]. auto.
  - inversion Hq' as [|? ? Hj _]; subst.
    assert (Hj' : (j < length (<[i := it1]> (vocab s)))%nat) by (rewrite length_insert; exact Hj).
    destruct (lookup_lt_is_Some_2 _ j Hj') as [itj Hitj]. change (vocab (set_vocab (<[i:=it1]> (vocab s)) s)) with (<[i:=it1]> (vocab s)). rewrite Hitj.
    change (quiz_direction (set_vocab (<[i:=it1]> (vocab s)) s)) with (quiz_direction s).
    intros Hinv2.
    destruct (pystr_eqb (quiz_direction _) en2fr).
    + do 4 eexists. split; [reflexivity|]. split; [exact Hinv2|].
      split; [cbn [vocab set_quiz set_vocab]; apply length_insert|]. split; [eauto|]. auto.
    + do 4 eexists. split; [reflexivity|]. split; [exact Hinv2|].
      split; [cbn [vocab set_quiz set_vocab]; apply length_insert|]. split; [eauto|]. auto.
Qed.

Lemma answer_all_session (answers : list (pystr * Z)) : forall s i,
  tutor_inv s -> quiz_current s = Some i -> length answers = S (length (quiz_queue s)) ->
  Forall (fun p => dt_in_range (snd p) = true /\ dt_in_range (snd p + 15 * day_us) = true) answers ->
  exists rs0 ok g s', answer_all s answers = (rs0 ++ [Ret (Verdict ok g QuizFinished)], s') /\
    Forall (fun r => exists ok' g' t, r = Ret (Verdict ok' g' (PromptFr t)) \/
                                      r = Ret (Verdict ok' g' (PromptEn t))) rs0 /\
    tutor_inv s' /\ quiz_current s' = None /\ quiz_queue s' = [] /\
    length (vocab s') = length (vocab s).
Proof.
  induction answers as [|[a now] rest IH]; intros s i Hinv Hc Hlen Hf; [discriminate|].
  inversion Hf as [|? ? [Hn Hr] Hf']; subst. simpl in Hn, Hr.
  destruct (answer_quiz_next s a now i Hinv Hc Hn Hr)
    as [ok [g [nxt [s1 [Ea [Hinv1 [Hv1 Hm]]]]]]].
  simpl. rewrite Ea.
  destruct (quiz_queue s) as [|j q] eqn:Eq.
  - destruct Hm as [-> [Hc1 Hq1]]. destruct rest as [|p rest]; [|simpl in Hlen; lia].
    exists [], ok, g, s1. split; [reflexivity|]. split; [constructor|]. split; [exact Hinv1|]. auto.
  - destruct Hm as [[t Ht] [Hc1 Hq1]].
    assert (Hlen1 : length rest = S (length (quiz_queue s1))) by (rewrite Hq1; simpl in Hlen; lia).
    destruct (IH s1 j Hinv1 Hc1 Hlen1 Hf') as [rs0 [ok2 [g2 [s2 [Er [Hrs [Hinv2 [Hc2 [Hq2 Hv2]]]]]]]]].
    rewrite Er. exists (Ret (Verdict ok g nxt) :: rs0), ok2, g2, s2.
    split; [reflexivity|]. split; [constructor; [exists ok, g, t; destruct Ht as [->| ->]; auto | exact Hrs]|].
    split; [exact Hinv2|]. split; [exact Hc2|]. split; [exact Hq2|]. lia.
Qed.

End QuizSession.

(** A quiz session: on a tutor the tools reach, with a question being
    asked, answering once more than the number of queued questions (at
    clock readings at least 15 days before [datetime.max]) never raises;
    every answer gets a verdict, each but the last chained with the next
    question's prompt and the last with "Quiz terminé"; the quiz is then
    over (no current question, empty queue) and the vocabulary has kept
    its length. *)
Theorem quiz_session_finishes `{UnicodeTables} `{DatetimeLib} (s : tutor) (i : nat)
    (answers : list (pystr * Z)) :
  reachable s -> quiz_current s = Some i -> length answers = S (length (quiz_queue s)) ->
  Forall (fun p => dt_in_range (snd p) = true /\ dt_in_range (snd p + 15 * day_us) = true) answers ->
  exists rs0 ok g s', answer_all s answers = (rs0 ++ [Ret (Verdict ok g QuizFinished)], s') /\
    Forall (fun r => exists ok' g' t, r = Ret (Verdict ok' g' (PromptFr t)) \/
                                      r = Ret (Verdict ok' g' (PromptEn t))) rs0 /\
    quiz_current s' = None /\ quiz_queue s' = [] /\ length (vocab s') = length (vocab s).
Proof.
  intros Hr Hc Hlen Hf.
  destruct (answer_all_session answers s i (reachable_inv s Hr) Hc Hlen Hf)
    as [rs0 [ok [g [s' [E [Hrs [_ [Hc' [Hq' Hv']]]]]]]]].
  exists rs0, ok, g, s'. auto.
Qed.

Lemma quiz_session_finishes_witness :
  quiz_current quiz_demo = Some 0%nat /\
  exists rs0 ok g s', answer_all quiz_demo [(py "chat", quiz_demo_now)] =
                       (rs0 ++ [Ret (Verdict ok g QuizFinished)], s') /\
    Forall (fun r => exists ok' g' t, r = Ret (Verdict ok' g' (PromptFr t)) \/
                                      r = Ret (Verdict ok' g' (PromptEn t))) rs0 /\
    quiz_current s' = None /\ quiz_queue s' = [] /\ length (vocab s') = length (vocab quiz_demo).
Proof.
  split; [vm_compute; reflexivity|].
  apply (@quiz_session_finishes latin1_tables iso_lib quiz_demo 0 [(py "chat", quiz_demo_now)]
           quiz_demo_reachable).
  - vm_compute. reflexivity.
  - vm_compute. reflexivity.
  - constructor; [split; vm_compute; reflexivity | constructor].
Defined.

Section OverdueProofs.

Context `{DatetimeLib}.

Lemma overdue_days_raw it now :
  overdue_days it now =
  match fromisoformat (raw_next_due it) with
  | ParsedNaive t => Some (if t <? now then (now - t) / day_us else 0)
  | _ => None
  end.
Proof. unfold overdue_days, raw_next_due. destruct (fromisoformat _); reflexivity. Qed.

Lemma due_check_raw it now :
  due_check it now =
  match fromisoformat (raw_next_due it) with
  | ParsedNaive t => Ret (t <=? now)
  | ParsedAware _ => Raise TypeError
  | ParseError => Ret (0 <=? now)
  end.
Proof. unfold due_check, raw_next_due. destruct (fromisoformat _); reflexivity. Qed.

Lemma whole_days x k : 0 < x -> (x / day_us = k <-> k * day_us <= x < (k + 1) * day_us).
Proof.
  intros Hx. assert (HD : 0 < day_us) by (unfold day_us, us_per_second; lia).
  split.
  - intros <-. pose proof (Z.div_mod x day_us ltac:(lia)).
    pose proof (Z.mod_pos_bound x day_us HD). nia.
  - intros Hk. symmetry. apply (Z.div_unique x day_us k (x - k * day_us)); [left|]; nia.
Qed.

End OverdueProofs.

(** The "overdue_days" column of the export: a whole number of days, the
    days elapsed since next_due, counted down (0 when next_due is not in
    the past), written only when next_due parses as a naive datetime; an
    item that is overdue by a day or more is one [_due_indices] lists. A
    next_due that does not parse gets the empty string in the export,
    while [_due_indices] takes it as 1970-01-01 and lists it as due. *)
Theorem overdue_days_spec `{DatetimeLib} (it : item) (now : Z) :
  (forall k, overdue_days it now = Some k <->
     exists t, fromisoformat (raw_next_due it) = ParsedNaive t /\
       ((t < now /\ k * day_us <= now - t < (k + 1) * day_us) \/ (now <= t /\ k = 0))) /\
  (forall k, overdue_days it now = Some k -> 0 < k -> due_check it now = Ret true) /\
  (fromisoformat (raw_next_due it) = ParseError ->
     overdue_days it now = None /\ due_check it now = Ret (0 <=? now)).
Proof.
  rewrite overdue_days_raw, due_check_raw.
  destruct (fromisoformat (raw_next_due it)) as [t|t|] eqn:Ep.
  - split; [|split; [|discriminate]].
    + intros k. split.
      * intros [= Hk]. exists t. split; [reflexivity|].
        destruct (Z.ltb_spec t now) as [Hlt|Hge].
        -- left. split; [exact Hlt|]. apply whole_days; [lia | exact Hk].
        -- right. split; [exact Hge | symmetry; exact Hk].
      * intros [t' [[= <-] [[Hlt Hb] | [Hge ->]]]]; f_equal.
        -- apply Z.ltb_lt in Hlt. rewrite Hlt. apply whole_days; [apply Z.ltb_lt in Hlt; lia | exact Hb].
        -- apply Z.ltb_ge in Hge. rewrite Hge. reflexivity.
    + intros k [= Hk] Hpos. f_equal. apply Z.leb_le.
      destruct (Z.ltb_spec t now); lia.
  - split; [intros k; split; [discriminate | intros [t' [E _]]; discriminate E]|].
    split; [discriminate | discriminate].
  - split; [intros k; split; [discriminate | intros [t' [E _]]; discriminate E]|].
    split; [discriminate | intros _; split; reflexivity].
Qed.

Section GiveSentenceProofs.

Context `{UnicodeTables}.

Lemma str_in_In x xs : str_in x xs = true <-> In x xs.
Proof.
  unfold str_in. rewrite existsb_exists. split.
  - intros [y [Hy E]]. unfold pystr_eqb in E. apply bool_decide_eq_true in E. subst y. exact Hy.
  - intros Hx. exists x. split; [exact Hx|]. unfold pystr_eqb. apply bool_decide_eq_true. reflexivity.
Qed.

Lemma topics_cases x : In x ROLEPLAY_TOPICS -> x = py "cafe" \/ x = py "travel" \/ x = py "hotel".
Proof.
  change ROLEPLAY_TOPICS with [py "cafe"; py "travel"; py "hotel"].
  intros [<-|[<-|[<-|Hf]]]; auto. destruct Hf.
Qed.

Lemma random_choice_some {X : Type} k (l : list X) :
  l <> [] -> exists x, random_choice k l = Some x /\ In x l.
Proof.
  intros Hl. unfold random_choice.
  assert (Hlt : (k mod length l < length l)%nat).
  { apply Nat.mod_upper_bound. destruct l; [congruence | discriminate]. }
  destruct (lookup_lt_is_Some_2 l _ Hlt) as [x Hx]. exists x. split; [exact Hx|].
  apply list_elem_of_In. eapply list_elem_of_lookup_2. exact Hx.
Qed.

Lemma topic_phrase_pack tp :
  (forall t, In t ROLEPLAY_TOPICS -> str_lower t = t) -> In tp ROLEPLAY_TOPICS ->
  exists ps, str_assoc PHRASES tp = Some ps /\ ps <> [] /\ phrase_pack tp = PhrasePack tp ps.
Proof.
  intros Hl Htp. unfold phrase_pack. rewrite (Hl tp Htp).
  destruct (topics_cases tp Htp) as [ -> | [ -> | -> ]]; eexists;
    (split; [reflexivity|]); (split; [discriminate|]); reflexivity.
Qed.

End GiveSentenceProofs.

(** give_sentence never raises, whatever the topic argument and the
    random draws: it sets the pronunciation target to the French side of a
    pair that phrase_pack lists for the topic it reports; that topic is the
    requested one (the argument if non-empty, else the current topic),
    lowercased but not stripped, when this is a key of PHRASES, and
    otherwise the topic random.choice draws from ROLEPLAY_TOPICS. The
    precondition is that lowercasing leaves the three topic names as they
    are, as str.lower does. *)
Theorem give_sentence_from_phrase_pack `{UnicodeTables} (s : tutor) (topic_in : option pystr)
    (k1 k2 : nat) :
  (forall t, In t ROLEPLAY_TOPICS -> str_lower t = t) ->
  exists fr tp items,
    give_sentence s topic_in k1 k2 = (Some (RepeatAfterMe fr tp), set_pron_target (Some fr) s) /\
    phrase_pack tp = PhrasePack tp items /\ In fr (map fst items) /\
    (let asked := str_lower (match topic_in with Some ((_ :: _) as t) => t | _ => topic s end) in
     (str_in asked ROLEPLAY_TOPICS = true -> tp = asked) /\
     (str_in asked ROLEPLAY_TOPICS = false -> ROLEPLAY_TOPICS !! (k1 mod 3)%nat = Some tp)).
Proof.
  intros Hl. unfold give_sentence. cbv zeta.
  set (tp0 := str_lower _).
  assert (Hc : exists tp, (if str_in tp0 ROLEPLAY_TOPICS then Some tp0
                          else random_choice k1 ROLEPLAY_TOPICS) = Some tp /\
                          In tp ROLEPLAY_TOPICS /\
                          (str_in tp0 ROLEPLAY_TOPICS = true -> tp = tp0) /\
                          (str_in tp0 ROLEPLAY_TOPICS = false -> ROLEPLAY_TOPICS !! (k1 mod 3)%nat = Some tp)).
  { destruct (str_in tp0 ROLEPLAY_TOPICS) eqn:E.
    - exists tp0. split; [reflexivity|]. split; [apply str_in_In; exact E|]. split; [auto | discriminate].
    - destruct (random_choice_some k1 ROLEPLAY_TOPICS ltac:(discriminate)) as [tp [Etp Hin]].
      exists tp. split; [exact Etp|]. split; [exact Hin|]. split; [discriminate|].
      intros _. exact Etp. }
  destruct Hc as [tp [Eo [Htp [Hk Hr]]]]. rewrite Eo.
  destruct (topic_phrase_pack tp Hl Htp) as [ps [Eps [Hne Hpp]]]. rewrite Eps.
  destruct (random_choice_some k2 ps Hne) as [[fr en] [Ek Hin]]. rewrite Ek.
  exists fr, tp, ps. split; [reflexivity|]. split; [exact Hpp|].
  split; [apply (in_map fst ps (fr, en)); exact Hin|].
  split; [exact Hk | exact Hr].
Qed.

Lemma give_sentence_from_phrase_pack_witness :
  (forall t, In t ROLEPLAY_TOPICS -> @str_lower latin1_tables t = t) /\
  exists fr tp items,
    @give_sentence latin1_tables fresh_tutor (Some (py " travel")) 4 1 =
      (Some (RepeatAfterMe fr tp), set_pron_target (Some fr) fresh_tutor) /\
    @phrase_pack latin1_tables tp = PhrasePack tp items /\ In fr (map fst items) /\
    (let asked := @str_lower latin1_tables (py " travel") in
     (str_in asked ROLEPLAY_TOPICS = true -> tp = asked) /\
     (str_in asked ROLEPLAY_TOPICS = false -> ROLEPLAY_TOPICS !! (4 mod 3)%nat = Some tp)).
Proof.
  assert (Hl : forall t, In t ROLEPLAY_TOPICS -> @str_lower latin1_tables t = t).
  { intros t Ht. destruct (topics_cases t Ht) as [ -> | [ -> | -> ]]; reflexivity. }
  split; [exact Hl|].
  exact (@give_sentence_from_phrase_pack latin1_tables fresh_tutor (Some (py " travel")) 4 1 Hl).
Defined.

Section EnvProofs.

Lemma lstrip_spaces pre x : Forall (fun c => py_isspace c = true) pre -> lstrip (pre ++ x) = lstrip x.
Proof. induction 1 as [|c pre Hc _ IH]; [reflexivity|]. simpl. rewrite Hc. exact IH. Qed.

Lemma lstrip_app x y :
  lstrip (x ++ y) = match lstrip x with [] => lstrip y | l => l ++ y end.
Proof.
  induction x as [|c x IH]; [reflexivity|]. simpl.
  destruct (py_isspace c); [exact IH | reflexivity].
Qed.

Lemma py_strip_padding pre v post :
  Forall (fun c => py_isspace c = true) pre -> Forall (fun c => py_isspace c = true) post ->
  py_strip (pre ++ v ++ post) = py_strip v.
Proof.
  intros Hpre Hpost. unfold py_strip. rewrite lstrip_spaces by exact Hpre.
  rewrite lstrip_app. destruct (lstrip v) as [|c l] eqn:Ev.
  - rewrite <- (app_nil_r post), lstrip_spaces by exact Hpost. reflexivity.
  - rewrite rev_app_distr, lstrip_spaces by (apply Forall_rev; exact Hpost). reflexivity.
Qed.

Lemma py_strip_spaces v : Forall (fun c => py_isspace c = true) v -> py_strip v = [].
Proof.
  intros Hv. unfold py_strip. rewrite <- (app_nil_r v), lstrip_spaces by exact Hv. reflexivity.
Qed.

Lemma latin1_lower_space c : py_isspace c = true -> latin1_lower c = c.
Proof.
  unfold py_isspace, latin1_lower. intros Hs.
  destruct (((65 <=? c) && (c <=? 90)) || ((192 <=? c) && (c <=? 222) && negb (c =? 215))) eqn:E;
    [|reflexivity].
  exfalso. rewrite !Bool.orb_true_iff, !Bool.andb_true_iff, !Z.leb_le, !Z.eqb_eq in Hs.
  rewrite Bool.orb_true_iff, !Bool.andb_true_iff, !Z.leb_le in E. lia.
Qed.

Lemma map_lower_spaces l :
  Forall (fun c => py_isspace c = true) l -> map latin1_lower l = l.
Proof.
  induction 1 as [|c l Hc _ IH]; [reflexivity|]. simpl. rewrite latin1_lower_space by exact Hc.
  rewrite IH. reflexivity.
Qed.

Lemma or_empty_id (v : pystr) : match v with [] => [] | z :: l => z :: l end = v.
Proof. destruct v; reflexivity. Qed.

Lemma env_missing_iff env k :
  env_missing env k = true <-> env !! k = None \/ env !! k = Some [].
Proof.
  unfold env_missing. destruct (env !! k) as [[|c v]|]; split; auto; try discriminate.
  intros [E|E]; discriminate E.
Qed.

End EnvProofs.

(** _flag on the Latin-1 tables: an unset variable reads as its default
    (so _flag(name, "true") is on and _flag(name, "false") off); a
    variable set to the empty string or to whitespace is off, whatever the
    default (os.getenv returns the empty string, not the default); and
    whitespace around the value does not matter. *)
Theorem flag_env_edges (env : environ) (name dflt : pystr) :
  (env !! name = None ->
     @_flag latin1_tables env name (py "true") = true /\
     @_flag latin1_tables env name (py "false") = false) /\
  (forall v : pystr, env !! name = Some v -> Forall (fun c => py_isspace c = true) v ->
     @_flag latin1_tables env name dflt = false) /\
  (forall pre v post : pystr, Forall (fun c => py_isspace c = true) pre ->
     Forall (fun c => py_isspace c = true) post ->
     @_flag latin1_tables (<[name := pre ++ v ++ post]> env) name dflt =
     @_flag latin1_tables (<[name := v]> env) name dflt).
Proof.
  split; [|split].
  - intros Hn. unfold _flag, getenv. rewrite Hn. split; reflexivity.
  - intros v Hv Hs. unfold _flag, getenv. rewrite Hv. rewrite or_empty_id.
    change (@str_lower latin1_tables) with (map latin1_lower).
    rewrite map_lower_spaces by exact Hs. rewrite py_strip_spaces by exact Hs. reflexivity.
  - intros pre v post Hpre Hpost. unfold _flag, getenv. rewrite !lookup_insert_eq, !or_empty_id.
    change (@str_lower latin1_tables) with (map latin1_lower). rewrite !map_app, (map_lower_spaces pre Hpre), (map_lower_spaces post Hpost).
    rewrite py_strip_padding by assumption. reflexivity.
Qed.

(** _require_env raises exactly when one of the keys is unset or set to
    the empty string (a whitespace value counts as set); the error then
    lists exactly those keys, in the order given. *)
Theorem require_env_spec (env : environ) (keys : list pystr) :
  (_require_env env keys = None <->
     Forall (fun k => exists v, env !! k = Some v /\ v <> []) keys) /\
  (forall missing, _require_env env keys = Some missing ->
     missing = List.filter (fun k => env_missing env k) keys /\ missing <> [] /\
     forall k, In k missing <-> In k keys /\ (env !! k = None \/ env !! k = Some [])).
Proof.
  unfold _require_env. split.
  - rewrite List.Forall_forall. split.
    + intros E k Hk. destruct (env !! k) as [[|c v]|] eqn:Ek.
      * exfalso. assert (Hin : In k (List.filter (env_missing env) keys)).
        { apply List.filter_In. split; [exact Hk|]. unfold env_missing. rewrite Ek. reflexivity. }
        destruct (List.filter (env_missing env) keys); [destruct Hin | discriminate].
      * exists (c :: v). split; [reflexivity | discriminate].
      * exfalso. assert (Hin : In k (List.filter (env_missing env) keys)).
        { apply List.filter_In. split; [exact Hk|]. unfold env_missing. rewrite Ek. reflexivity. }
        destruct (List.filter (env_missing env) keys); [destruct Hin | discriminate].
    + intros Hall. destruct (List.filter (env_missing env) keys) as [|k m] eqn:Ef; [reflexivity|].
      exfalso. assert (Hk : In k (List.filter (env_missing env) keys)) by (rewrite Ef; left; reflexivity).
      apply List.filter_In in Hk as [Hk Hm]. destruct (Hall k Hk) as [v [Ev Hv]].
      unfold env_missing in Hm. rewrite Ev in Hm. destruct v; [congruence | discriminate].
  - intros missing. destruct (List.filter (env_missing env) keys) as [|k m] eqn:Ef; [discriminate|].
    intros [= <-]. split; [reflexivity|]. split; [discriminate|].
    intros k'. rewrite <- Ef, List.filter_In, env_missing_iff. reflexivity.
Qed.

Section ListVocabProofs.

Lemma list_rows_none i v : list_rows i v = None <-> exists it, In it v /\ next_due it = None.
Proof.
  revert i. induction v as [|it v IH]; intros i; simpl.
  - split; [discriminate | intros [it [[] _]]].
  - destruct (next_due it) as [d|] eqn:Ed.
    + specialize (IH (S i)). destruct (list_rows (S i) v) as [rows|].
      * split; [discriminate|]. intros [it' [[<-|Hin] Hn]]; [congruence|].
        discriminate (proj2 IH (ex_intro _ it' (conj Hin Hn))).
      * split; [|reflexivity]. intros _. destruct (proj1 IH eq_refl) as [it' [Hin Hn]].
        exists it'. split; [right; exact Hin | exact Hn].
    + split; [|reflexivity]. intros _. exists it. split; [left; reflexivity | exact Ed].
Qed.

Lemma list_rows_spec i v rows : list_rows i v = Some rows ->
  length rows = length v /\
  forall j row, rows !! j = Some row ->
    exists it d, v !! j = Some it /\ next_due it = Some d /\
                 row = ((i + j)%nat, word it, translation it, box it, d).
Proof.
  revert i rows. induction v as [|it v IH]; intros i rows; simpl.
  - intros [= <-]. split; [reflexivity|]. intros j row Hj. discriminate Hj.
  - destruct (next_due it) as [d|] eqn:Ed; [|discriminate].
    destruct (list_rows (S i) v) as [rows'|] eqn:Er; [|discriminate].
    intros [= <-]. destruct (IH (S i) rows' Er) as [Hl Hrows].
    split; [simpl; rewrite Hl; reflexivity|].
    intros [|j] row Hj; simpl in Hj.
    + injection Hj as <-. exists it, d. split; [reflexivity|]. split; [exact Ed|].
      rewrite Nat.add_0_r. reflexivity.
    + destruct (Hrows j row Hj) as [it' [d' [H1' [H2' H3']]]]. exists it', d'.
      split; [exact H1'|]. split; [exact H2'|]. rewrite H3'. do 4 f_equal. lia.
Qed.

End ListVocabProofs.

(** list_vocab: "Ta liste est vide." exactly for an empty vocabulary; it
    raises KeyError exactly when some item has no next_due; otherwise it
    writes one line per item, in the order of the vocabulary, numbered
    from 1, with the item's word, translation, box and next_due. *)
Theorem list_vocab_rows (s : tutor) :
  (list_vocab s = Some EmptyVocab <-> vocab s = []) /\
  (list_vocab s = None <-> exists it, In it (vocab s) /\ next_due it = None) /\
  (forall rows, list_vocab s = Some (VocabLines rows) ->
     length rows = length (vocab s) /\
     forall j row, rows !! j = Some row ->
       exists it d, vocab s !! j = Some it /\ next_due it = Some d /\
                    row = (S j, word it, translation it, box it, d)).
Proof.
  unfold list_vocab. destruct (vocab s) as [|it v] eqn:Ev.
  - split; [split; reflexivity|]. split.
    + split; [discriminate | intros [it [[] _]]].
    + intros rows [=].
  - rewrite <- Ev. pose proof (list_rows_none 1 (vocab s)) as Hn.
    pose proof (list_rows_spec 1 (vocab s)) as Hsp. rewrite Ev in Hn, Hsp |- *.
    destruct (list_rows 1 (it :: v)) as [rows|] eqn:Er.
    + split; [split; [discriminate | intros [=]]|]. split; [split; [discriminate|]; intros Hx; apply Hn in Hx; discriminate|].
      intros rows' [= <-]. exact (Hsp rows eq_refl).
    + split; [split; [discriminate | intros [=]]|]. split; [split; [intros _; apply Hn; reflexivity | reflexivity]|].
      intros rows' [=].
Qed.

(** add_vocab, when the date a day later is a datetime that the datetime
    library reads back as written: the reply is "Ajouté: {word} →
    {translation}" with the stripped word and translation; the item is
    appended (the other items and the quiz are untouched) in box 1, and it
    comes due exactly at the whole second a day after now, so it is not due
    now and is due a day later ("Première révision demain"). *)
Theorem add_vocab_due_tomorrow `{DatetimeLib} (s : tutor) (w t : pystr) (e : option pystr)
    (now : Z) (r : outcome reply) (s' : tutor) :
  add_vocab s w t e now = (r, s') ->
  dt_in_range (now + day_us) = true ->
  fromisoformat (isoformat_seconds ((now + day_us) / us_per_second)) =
    ParsedNaive ((now + day_us) / us_per_second * us_per_second) ->
  r = Ret (Added (py_strip w) (py_strip t)) /\
  quiz_queue s' = quiz_queue s /\ quiz_current s' = quiz_current s /\
  exists it, vocab s' = vocab s ++ [it] /\ box it = 1 /\
    (forall now', due_check it now' =
                  Ret ((now + day_us) / us_per_second * us_per_second <=? now')) /\
    due_check it now = Ret false /\ due_check it (now + day_us) = Ret true.
Proof.
  intros Ha Hr Hp.
  assert (E : _next_due 1 now = Some (isoformat_seconds ((now + day_us) / us_per_second))).
  { unfold _next_due. change (dict_get BOX_DELAYS_DAYS (Z.max 1 (Z.min 5 1)) 1) with 1.
    rewrite Z.mul_1_l, Hr. reflexivity. }
  unfold add_vocab in Ha. rewrite E in Ha. injection Ha as <- <-.
  split; [reflexivity|]. split; [reflexivity|]. split; [reflexivity|].
  eexists. split; [reflexivity|]. split; [reflexivity|].
  assert (Hd : forall now', due_check {| word := py_strip w; translation := py_strip t;
      example := py_strip match e with Some x => x | None => [] end; box := 1;
      next_due := Some (isoformat_seconds ((now + day_us) / us_per_second)); history := [] |} now' =
      Ret ((now + day_us) / us_per_second * us_per_second <=? now')).
  { intros now'. unfold due_check. cbn [next_due]. rewrite Hp. reflexivity. }
  split; [exact Hd|]. rewrite !Hd.
  pose proof (Z.div_mod (now + day_us) us_per_second ltac:(discriminate)) as Hdm.
  pose proof (Z.mod_pos_bound (now + day_us) us_per_second ltac:(reflexivity)) as Hmb.
  split; f_equal.
  - apply Z.leb_gt. unfold day_us, us_per_second in *. lia.
  - apply Z.leb_le. unfold day_us, us_per_second in *. lia.
Qed.

Lemma add_vocab_due_tomorrow_witness :
  dt_in_range (sample_now + day_us) = true /\
  @fromisoformat iso_lib (@isoformat_seconds iso_lib ((sample_now + day_us) / us_per_second)) =
    ParsedNaive ((sample_now + day_us) / us_per_second * us_per_second) /\
  exists it, vocab (snd (@add_vocab iso_lib fresh_tutor (py " chat") (py "cat ") None sample_now)) =
             vocab fresh_tutor ++ [it] /\ box it = 1 /\
    @due_check iso_lib it sample_now = Ret false /\
    @due_check iso_lib it (sample_now + day_us) = Ret true.
Proof.
  assert (Hr : dt_in_range (sample_now + day_us) = true) by (vm_compute; reflexivity).
  assert (Hp : @fromisoformat iso_lib (@isoformat_seconds iso_lib ((sample_now + day_us) / us_per_second)) =
    ParsedNaive ((sample_now + day_us) / us_per_second * us_per_second)) by (vm_compute; reflexivity).
  split; [exact Hr|]. split; [exact Hp|].
  destruct (@add_vocab_due_tomorrow iso_lib fresh_tutor (py " chat") (py "cat ") None sample_now
              (fst (@add_vocab iso_lib fresh_tutor (py " chat") (py "cat ") None sample_now))
              (snd (@add_vocab iso_lib fresh_tutor (py " chat") (py "cat ") None sample_now))
              (surjective_pairing _) Hr Hp)
    as [_ [_ [_ [it [Ev [Hb [_ [H1 H2]]]]]]]].
  exists it. split; [exact Ev|]. split; [exact Hb|]. split; [exact H1 | exact H2].
Defined.
